(** * MouseWiggler: light-state detection and wiggle scheduling

    A shallow embedding of [MouseWiggler.ino] (Arduino Micro Pro,
    ATmega32U4): the two timer interrupt routines [readAnalogIntoArray]
    and [sendWiggle], the start-up routine [setup], and the global
    variables they share.

    Machine integers are modelled as [Z] with the wrap-around of the
    target written out: [int] is 16 bits, [unsigned int] is 16 bits and
    [signed long] is 32 bits on this board.  Array accesses outside the
    array and divisions by zero have no defined result in C; routines
    that can run into them return [option], with [None] standing for
    "the C program has no defined behaviour here". *)

From Stdlib Require Import ZArith List Bool Lia.
From stdpp Require Import base list.
Import ListNotations.

Local Open Scope Z_scope.

(** ** Machine arithmetic *)

Module Machine.

(** [unsigned int]: 16 bits. *)
Definition wrap_uint (z : Z) : Z := z mod 65536.

(** [int]: 16 bits, two's complement. *)
Definition wrap_int (z : Z) : Z := (z + 32768) mod 65536 - 32768.

(** [signed long]: 32 bits, two's complement. *)
Definition LONG_MIN : Z := -2147483648.
Definition LONG_MAX : Z := 2147483647.
Definition wrap_long (z : Z) : Z := (z + 2147483648) mod 4294967296 - 2147483648.

Definition ladd (a b : Z) : Z := wrap_long (a + b).
Definition lsub (a b : Z) : Z := wrap_long (a - b).
Definition lmul (a b : Z) : Z := wrap_long (a * b).
Definition lneg (a : Z) : Z := wrap_long (- a).

(** [a / b] on [signed long]: truncation toward zero; no result when
    the divisor is zero or the quotient does not fit. *)
Definition ldiv (a b : Z) : option Z :=
  if b =? 0 then None
  else if (a =? LONG_MIN) && (b =? -1) then None
  else Some (Z.quot a b).

(** [x++] on an [unsigned int] used as an array index. *)
Definition uint_succ (n : nat) : nat := Z.to_nat (wrap_uint (Z.of_nat n + 1)).

(** The [abs] macro of [Arduino.h]: [((x)>0?(x):-(x))]. *)
Definition abs (x : Z) : Z := if 0 <? x then x else lneg x.

End Machine.
Import Machine.

(** ** Configuration constants (the [#define]s of the sketch) *)

Definition SUDDEN_CHANGE_THRESHOLD : Z := 15.
Definition CHANGE_RATE_THRESHOLD : Z := 5.
Definition wigglePeriod : Z := 10.
Definition wigglePeriodVariation : Z := 3.
Definition SizeOfAnalogArray : nat := 100.
Definition HISTORY_SIZE : nat := 5.
Definition led_pin : Z := 2.

(** ** Observable effects *)

(** Lines written to the serial port.  The numeric fields of the
    diagnostic lines are kept as numbers. *)
Inductive message : Type :=
| Diagnostic (prior sum diff percentChange rateOfChange : Z)
    (* "(..ms) ADC Prior: .. ADC Current: .. Diff: .. Change%: .. Rate%: .." *)
| LightsOn            (* "Lights Detected ON (sudden change)" *)
| LightsOff           (* "Lights Detected OFF (sudden change)" *)
| GradualIgnored (percentChange rateOfChange : Z)
    (* "Gradual change ignored (..% change, ..% rate)" *)
| NeedWiggle (next : Z)  (* "Need to wiggle the mouse (next in ..s)" *)
| DoNotWiggle.        (* "Do not wiggle the mouse" *)

Inductive event : Type :=
| Println (m : message)
| MouseMove (x y wheel : Z)
| Delay (ms : Z)
| DigitalWrite (pin : Z) (high : bool).

(** [if (Serial) Serial.println(m);] where [serial] is the value of
    [Serial] (true when the host has opened the port). *)
Definition log (serial : bool) (m : message) : list event :=
  if serial then [Println m] else [].

(** ** Global variables *)

Record state : Type := mkState {
  AnalogArray : list Z;          (* unsigned int AnalogArray[SizeOfAnalogArray] *)
  AnalogArrayPosition : nat;     (* unsigned int *)
  lightStatus : bool;
  priorSum : Z;                  (* signed long *)
  sumHistory : list Z;           (* signed long sumHistory[HISTORY_SIZE] *)
  historyPosition : nat;         (* unsigned int *)
  historyFilled : bool;
  wiggleSec : Z;                 (* int *)
  nextWiggleTime : Z;            (* int *)
  randomCalls : nat              (* how many numbers were drawn from random() *)
}.

(** The globals as the C start-up code leaves them: initialisers where
    the sketch gives one, zero otherwise. *)
Definition power_on : state := {|
  AnalogArray := replicate SizeOfAnalogArray 0;
  AnalogArrayPosition := 0%nat;
  lightStatus := true;
  priorSum := 0;
  sumHistory := replicate HISTORY_SIZE 0;
  historyPosition := 0%nat;
  historyFilled := false;
  wiggleSec := 0;
  nextWiggleTime := wigglePeriod;
  randomCalls := 0%nat
|}.

(** ** Summing the sample window *)

(** [for (counter = c; counter < c + n; counter++) sum += (signed long) arr[counter];] *)
Fixpoint sum_loop (n : nat) (counter : nat) (arr : list Z) (sum : Z) : option Z :=
  match n with
  | O => Some sum
  | S n' =>
      match arr !! counter with
      | Some v => sum_loop n' (S counter) arr (ladd sum v)
      | None => None
      end
  end.

Definition window_sum (arr : list Z) : option Z :=
  sum_loop SizeOfAnalogArray 0 arr 0.

(** ** setup *)

(** The pre-fill loop
    [for (int counter = 0; counter < SizeOfAnalogArray; counter++)
       AnalogArray[counter++] = analogRead(photoCellSense);]
    The body increments [counter] and so does the loop header.  [k]
    counts the calls of [analogRead]; [sensor k] is the value the
    [k]-th call returns.  [fuel] bounds the iterations. *)
Fixpoint prefill (fuel : nat) (sensor : nat -> Z) (counter k : nat) (arr : list Z)
  : list Z :=
  match fuel with
  | O => arr
  | S fuel' =>
      if (counter <? SizeOfAnalogArray)%nat
      then prefill fuel' sensor (S (S counter)) (S k)
                   (<[counter := wrap_uint (sensor k)]> arr)
      else arr
  end.

(** [setup], restricted to the variables of the detection algorithm
    (pin configuration, timers and the seeding of [random] are left
    out). *)
Definition setup (sensor : nat -> Z) (st : state) : option state :=
  let arr := prefill SizeOfAnalogArray sensor 0 0 (AnalogArray st) in
  match window_sum arr with
  | None => None
  | Some initialSum =>
      Some {| AnalogArray := arr;
              AnalogArrayPosition := AnalogArrayPosition st;
              lightStatus := lightStatus st;
              priorSum := initialSum;
              sumHistory := replicate HISTORY_SIZE initialSum;
              historyPosition := historyPosition st;
              historyFilled := historyFilled st;
              wiggleSec := wiggleSec st;
              nextWiggleTime := nextWiggleTime st;
              randomCalls := randomCalls st |}
  end.

(** ** readAnalogIntoArray (Timer1, 100 Hz) *)

(** [percentChange = (diff * 100) / priorSum] with [diff = sum - priorSum]. *)
Definition percentChange_of (sum prior : Z) : option Z :=
  ldiv (lmul (lsub sum prior) 100) prior.

(** [rateOfChange = (totalDiff * 100) / (oldestSum * HISTORY_SIZE)]
    with [totalDiff = sum - oldestSum]. *)
Definition rateOfChange_of (sum oldest : Z) : option Z :=
  ldiv (lmul (lsub sum oldest) 100) (lmul oldest (Z.of_nat HISTORY_SIZE)).

(** The [if (historyFilled) { ... }] block: the new value of
    [lightStatus] and what is printed. *)
Definition classify (serial filled : bool) (percentChange rateOfChange : Z)
    (status : bool) : bool * list event :=
  if filled then
    if (SUDDEN_CHANGE_THRESHOLD <? percentChange)
       && (CHANGE_RATE_THRESHOLD <? abs rateOfChange)
    then (true, log serial LightsOn)
    else if (percentChange <? - SUDDEN_CHANGE_THRESHOLD)
            && (CHANGE_RATE_THRESHOLD <? abs rateOfChange)
    then (false, log serial LightsOff)
    else if (5 <? abs percentChange)
            && (abs rateOfChange <=? CHANGE_RATE_THRESHOLD)
    then (status, log serial (GradualIgnored percentChange rateOfChange))
    else (status, [])
  else (status, []).

(** The body of [if (!AnalogArrayPosition) { ... }] once [sum] has been
    computed: one classification cycle. *)
Definition classification_cycle (serial : bool) (sum : Z) (st : state)
  : option (state * list event) :=
  let diff := lsub sum (priorSum st) in
  match percentChange_of sum (priorSum st) with
  | None => None
  | Some percentChange =>
      match sumHistory st !! historyPosition st with
      | None => None
      | Some oldestSum =>
          match rateOfChange_of sum oldestSum with
          | None => None
          | Some rateOfChange =>
              let hist := <[historyPosition st := sum]> (sumHistory st) in
              let hpos := (uint_succ (historyPosition st) mod HISTORY_SIZE)%nat in
              let filled := if (hpos =? 0)%nat then true else historyFilled st in
              let line :=
                log serial (Diagnostic (priorSum st) sum diff percentChange rateOfChange) in
              let '(status, verdict) :=
                classify serial filled percentChange rateOfChange (lightStatus st) in
              Some ({| AnalogArray := AnalogArray st;
                       AnalogArrayPosition := AnalogArrayPosition st;
                       lightStatus := status;
                       priorSum := sum;
                       sumHistory := hist;
                       historyPosition := hpos;
                       historyFilled := filled;
                       wiggleSec := wiggleSec st;
                       nextWiggleTime := nextWiggleTime st;
                       randomCalls := randomCalls st |},
                    line ++ verdict)
          end
      end
  end.

(** [AnalogArray[AnalogArrayPosition++] = analogRead(photoCellSense);
     AnalogArrayPosition = AnalogArrayPosition % SizeOfAnalogArray;]
    where [reading] is what [analogRead] returns. *)
Definition store_sample (reading : Z) (st : state) : state :=
  {| AnalogArray := <[AnalogArrayPosition st := wrap_uint reading]> (AnalogArray st);
     AnalogArrayPosition :=
       (uint_succ (AnalogArrayPosition st) mod SizeOfAnalogArray)%nat;
     lightStatus := lightStatus st;
     priorSum := priorSum st;
     sumHistory := sumHistory st;
     historyPosition := historyPosition st;
     historyFilled := historyFilled st;
     wiggleSec := wiggleSec st;
     nextWiggleTime := nextWiggleTime st;
     randomCalls := randomCalls st |}.

(** [readAnalogIntoArray].  A write outside [AnalogArray] has no
    defined result. *)
Definition readAnalogIntoArray (serial : bool) (reading : Z) (st : state)
  : option (state * list event) :=
  if (AnalogArrayPosition st <? length (AnalogArray st))%nat then
    let st1 := store_sample reading st in
    if (AnalogArrayPosition st1 =? 0)%nat then
      match window_sum (AnalogArray st1) with
      | None => None
      | Some sum => classification_cycle serial sum st1
      end
    else Some (st1, [])
  else None.

(** ** sendWiggle (Timer3, 1 Hz) *)

(** The pseudo-random generator of the C library is not part of the
    sketch.  [raw k] stands for the value the [k]-th call of the
    library's [random()] returns; it is reduced to the generator's range
    [0 .. 2^31 - 1]. *)
Definition raw_random (raw : nat -> N) (k : nat) : Z :=
  Z.of_N (raw k) mod 2147483648.

(** [random(howbig)] of the Arduino core:
    [if (howbig == 0) return 0; return random() % howbig;] *)
Definition random_below (raw : nat -> N) (howbig : Z) (calls : nat) : Z * nat :=
  if howbig =? 0 then (0, calls)
  else (Z.rem (raw_random raw calls) howbig, S calls).

(** [random(howsmall, howbig)] of the Arduino core:
    [if (howsmall >= howbig) return howsmall;
     long diff = howbig - howsmall; return random(diff) + howsmall;] *)
Definition random_between (raw : nat -> N) (howsmall howbig : Z) (calls : nat)
  : Z * nat :=
  if howbig <=? howsmall then (howsmall, calls)
  else
    let diff := lsub howbig howsmall in
    let '(r, calls') := random_below raw diff calls in
    (ladd r howsmall, calls').

Definition sendWiggle (raw : nat -> N) (serial : bool) (st : state)
  : state * list event :=
  let sec := wrap_int (wiggleSec st + 1) in
  if nextWiggleTime st <=? sec then
    let '(r, c1) :=
      random_between raw (- wigglePeriodVariation) (wigglePeriodVariation + 1)
                     (randomCalls st) in
    let drawn := wrap_int (ladd wigglePeriod r) in
    let next := if drawn <? 3 then 3 else drawn in
    if lightStatus st then
      let '(rx, c2) := random_below raw 2 c1 in
      let moveX := if rx =? 0 then 1 else -1 in
      let '(ry, c3) := random_below raw 2 c2 in
      let moveY := if ry =? 0 then 1 else -1 in
      ({| AnalogArray := AnalogArray st;
          AnalogArrayPosition := AnalogArrayPosition st;
          lightStatus := lightStatus st;
          priorSum := priorSum st;
          sumHistory := sumHistory st;
          historyPosition := historyPosition st;
          historyFilled := historyFilled st;
          wiggleSec := 0;
          nextWiggleTime := next;
          randomCalls := c3 |},
       log serial (NeedWiggle next)
         ++ [MouseMove moveX moveY 0; Delay 1;
             MouseMove (wrap_int (- moveX)) (wrap_int (- moveY)) 0;
             DigitalWrite led_pin true])
    else
      ({| AnalogArray := AnalogArray st;
          AnalogArrayPosition := AnalogArrayPosition st;
          lightStatus := lightStatus st;
          priorSum := priorSum st;
          sumHistory := sumHistory st;
          historyPosition := historyPosition st;
          historyFilled := historyFilled st;
          wiggleSec := 0;
          nextWiggleTime := next;
          randomCalls := c1 |},
       log serial DoNotWiggle ++ [DigitalWrite led_pin false])
  else
    ({| AnalogArray := AnalogArray st;
        AnalogArrayPosition := AnalogArrayPosition st;
        lightStatus := lightStatus st;
        priorSum := priorSum st;
        sumHistory := sumHistory st;
        historyPosition := historyPosition st;
        historyFilled := historyFilled st;
        wiggleSec := sec;
        nextWiggleTime := nextWiggleTime st;
        randomCalls := randomCalls st |},
     []).

(** ** The running system *)

(** After [setup] the two timers fire in some order: [Timer1] runs
    [readAnalogIntoArray] on a fresh reading, [Timer3] runs
    [sendWiggle]. *)
Inductive tick : Type :=
| Timer1 (reading : Z)
| Timer3.

Definition step (raw : nat -> N) (serial : bool) (tk : tick) (st : state)
  : option (state * list event) :=
  match tk with
  | Timer1 reading => readAnalogIntoArray serial reading st
  | Timer3 => Some (sendWiggle raw serial st)
  end.

(** One interrupt as it happened: the state it found, the state it
    left and what it emitted. *)
Record transition : Type := mkTransition {
  fired : tick;
  before : state;
  after : state;
  emitted : list event
}.

Fixpoint trace (raw : nat -> N) (serial : bool) (tks : list tick) (st : state)
  : option (list transition) :=
  match tks with
  | [] => Some []
  | tk :: tks' =>
      match step raw serial tk st with
      | None => None
      | Some (st', out) =>
          match trace raw serial tks' st' with
          | None => None
          | Some tr => Some (mkTransition tk st st' out :: tr)
          end
      end
  end.

(** The state a run ends in. *)
Fixpoint run (raw : nat -> N) (serial : bool) (tks : list tick) (st : state)
  : option state :=
  match tks with
  | [] => Some st
  | tk :: tks' =>
      match step raw serial tk st with
      | None => None
      | Some (st', _) => run raw serial tks' st'
      end
  end.

(** Power-on, [setup], then the interrupts of [tks]. *)
Definition boot_and_run (raw : nat -> N) (serial : bool) (sensor : nat -> Z)
    (tks : list tick) : option state :=
  match setup sensor power_on with
  | None => None
  | Some st => run raw serial tks st
  end.

(** Classification cycles alone, driven by the window sums. *)
Fixpoint run_cycles (serial : bool) (sums : list Z) (st : state) : option state :=
  match sums with
  | [] => Some st
  | sum :: sums' =>
      match classification_cycle serial sum st with
      | None => None
      | Some (st', _) => run_cycles serial sums' st'
      end
  end.

(** The mouse movements among the events, and where they leave the
    pointer. *)
Fixpoint displacement (evs : list event) : Z * Z :=
  match evs with
  | [] => (0, 0)
  | MouseMove x y _ :: evs' =>
      let '(dx, dy) := displacement evs' in (x + dx, y + dy)
  | _ :: evs' => displacement evs'
  end.

Definition is_move (e : event) : bool :=
  match e with MouseMove _ _ _ => true | _ => false end.

Definition moves (evs : list event) : list event := List.filter is_move evs.

(** * The earlier sketch

    The repository also holds the sketch as it was before the
    rate-of-change detection was added: one threshold, [margin], on the
    change of the window sum, and a wiggle every [wigglePeriod] seconds
    in a fixed direction.  It shares the sample window and its pre-fill
    loop with the current sketch. *)

Module Legacy.

Definition margin : Z := 10.
Definition wigglePeriod : Z := 10.

Inductive message : Type :=
| Diagnostic (prior sum diff percent : Z)
    (* "(..ms) ADC Prior: .. ADC Channel: .. diff: .. percent: .." *)
| LightsOn            (* "Lights Detected ON" *)
| LightsOff           (* "Lights Detected OFF" *)
| NeedWiggle          (* "Need to wiggle the mouse" *)
| DoNotWiggle.        (* "Do not wiggle the mouse" *)

Inductive event : Type :=
| Println (m : message)
| MouseMove (x y wheel : Z)
| Delay (ms : Z)
| DigitalWrite (pin : Z) (high : bool).

Definition log (serial : bool) (m : message) : list event :=
  if serial then [Println m] else [].

Record state : Type := mkState {
  AnalogArray : list Z;          (* unsigned int AnalogArray[SizeOfAnalogArray] *)
  AnalogArrayPosition : nat;     (* unsigned int *)
  lightStatus : bool;
  priorSum : Z;                  (* signed long, no initialiser *)
  wiggleSec : Z                  (* int *)
}.

Definition power_on : state := {|
  AnalogArray := replicate SizeOfAnalogArray 0;
  AnalogArrayPosition := 0%nat;
  lightStatus := true;
  priorSum := 0;
  wiggleSec := 0
|}.

(** [setup]: the pre-fill loop is the only part that touches the
    variables of the algorithm. *)
Definition setup (sensor : nat -> Z) (st : state) : state :=
  {| AnalogArray := prefill SizeOfAnalogArray sensor 0 0 (AnalogArray st);
     AnalogArrayPosition := AnalogArrayPosition st;
     lightStatus := lightStatus st;
     priorSum := priorSum st;
     wiggleSec := wiggleSec st |}.

(** [percent = 1 - (diff * 100 / priorSum)] with [diff = priorSum - sum]. *)
Definition percent_of (sum prior : Z) : option Z :=
  match ldiv (lmul (lsub prior sum) 100) prior with
  | None => None
  | Some q => Some (lsub 1 q)
  end.

(** The two tests on [percent]: the new value of [lightStatus] and
    what is printed. *)
Definition judge (serial : bool) (percent : Z) (status : bool)
  : bool * list event :=
  if margin <? percent then (true, log serial LightsOn)
  else if percent <? - margin then (false, log serial LightsOff)
  else (status, []).

Definition readAnalogIntoArray (serial : bool) (reading : Z) (st : state)
  : option (state * list event) :=
  if (AnalogArrayPosition st <? length (AnalogArray st))%nat then
    let arr := <[AnalogArrayPosition st := wrap_uint reading]> (AnalogArray st) in
    let pos := (uint_succ (AnalogArrayPosition st) mod SizeOfAnalogArray)%nat in
    if (pos =? 0)%nat then
      match window_sum arr with
      | None => None
      | Some sum =>
          let diff := lsub (priorSum st) sum in
          match percent_of sum (priorSum st) with
          | None => None
          | Some percent =>
              let line := log serial (Diagnostic (priorSum st) sum diff percent) in
              let '(status, verdict) := judge serial percent (lightStatus st) in
              Some ({| AnalogArray := arr;
                       AnalogArrayPosition := pos;
                       lightStatus := status;
                       priorSum := sum;
                       wiggleSec := wiggleSec st |},
                    line ++ verdict)
          end
      end
    else
      Some ({| AnalogArray := arr;
               AnalogArrayPosition := pos;
               lightStatus := lightStatus st;
               priorSum := priorSum st;
               wiggleSec := wiggleSec st |},
            [])
  else None.

(** [if (!(wiggleSec++ % wigglePeriod)) { wiggleSec = 1; ... }] *)
Definition sendWiggle (serial : bool) (st : state) : state * list event :=
  let old := wiggleSec st in
  let sec := wrap_int (old + 1) in
  if Z.rem old wigglePeriod =? 0 then
    ({| AnalogArray := AnalogArray st;
        AnalogArrayPosition := AnalogArrayPosition st;
        lightStatus := lightStatus st;
        priorSum := priorSum st;
        wiggleSec := 1 |},
     if lightStatus st then
       log serial NeedWiggle
         ++ [MouseMove 1 1 0; Delay 1; MouseMove (-1) (-1) 0;
             DigitalWrite led_pin true]
     else log serial DoNotWiggle ++ [DigitalWrite led_pin false])
  else
    ({| AnalogArray := AnalogArray st;
        AnalogArrayPosition := AnalogArrayPosition st;
        lightStatus := lightStatus st;
        priorSum := priorSum st;
        wiggleSec := sec |},
     []).

(** [n] ticks of Timer1, one reading each. *)
Fixpoint sample_all (serial : bool) (readings : list Z) (st : state)
  : option state :=
  match readings with
  | [] => Some st
  | reading :: readings' =>
      match readAnalogIntoArray serial reading st with
      | None => None
      | Some (st', _) => sample_all serial readings' st'
      end
  end.

(** [n] ticks of Timer3. *)
Fixpoint seconds (serial : bool) (n : nat) (st : state) : state :=
  match n with
  | O => st
  | S n' => seconds serial n' (fst (sendWiggle serial st))
  end.

End Legacy.

(** * Vocabulary of the properties *)

(** ** Ranges of the samples and of the sums *)

(** The largest sum one window can hold: a hundred 16-bit samples. *)
Definition SUM_MAX : Z := 6553500.

Definition sample_ok (v : Z) : Prop := 0 <= v <= 65535.
Definition sum_ok (v : Z) : Prop := 0 <= v <= SUM_MAX.

Definition total (l : list Z) : Z := foldr Z.add 0 l.

(** ** The two percentages on unbounded integers *)

(** The formulas as the documentation writes them, on unbounded
    integers with division truncating toward zero. *)
Definition pct (sum prior : Z) : Z := Z.quot ((sum - prior) * 100) prior.
Definition rate (sum oldest : Z) : Z :=
  Z.quot ((sum - oldest) * 100) (oldest * Z.of_nat HISTORY_SIZE).

(** ** Well-formed states *)

(** What every state of a running sketch satisfies: the arrays have
    their declared sizes, the indices are inside them, the samples are
    16-bit values and the stored sums are sums of one window. *)
Record wf (st : state) : Prop := mkWf {
  wf_length : length (AnalogArray st) = SizeOfAnalogArray;
  wf_position : (AnalogArrayPosition st < SizeOfAnalogArray)%nat;
  wf_samples : Forall sample_ok (AnalogArray st);
  wf_hlength : length (sumHistory st) = HISTORY_SIZE;
  wf_hposition : (historyPosition st < HISTORY_SIZE)%nat;
  wf_prior : sum_ok (priorSum st);
  wf_history : Forall sum_ok (sumHistory st)
}.

(** A state whose reference sums are all positive: every cycle on it
    runs to its end. *)
Definition live (st : state) : Prop :=
  wf st /\ 0 < priorSum st /\ Forall (fun v => 0 < v) (sumHistory st).

(** ** Inside one classification cycle *)

(** The entry of the history that the next cycle evicts. *)
Definition oldestSum (st : state) : Z :=
  default 0 (sumHistory st !! historyPosition st).

(** The value [historyFilled] has when the next cycle tests it: the
    history is updated before the test. *)
Definition primed_this_cycle (st : state) : bool :=
  if (uint_succ (historyPosition st) mod HISTORY_SIZE =? 0)%nat then true
  else historyFilled st.

(** The window the cycle sums when the tick at the last slot stores
    [reading]. *)
Definition closing_window (reading : Z) (st : state) : list Z :=
  AnalogArray (store_sample reading st).

(** What a completed cycle leaves behind. *)
Definition cycle_outcome (serial : bool) (sum : Z) (st st' : state)
    (out : list event) : Prop :=
  (lightStatus st', out) =
    (let pc := pct sum (priorSum st) in
     let r := rate sum (oldestSum st) in
     let '(status, verdict) :=
       classify serial (primed_this_cycle st) pc r (lightStatus st) in
     (status,
      log serial (Diagnostic (priorSum st) sum (sum - priorSum st) pc r)
        ++ verdict))
  /\ priorSum st' = sum
  /\ sumHistory st' = <[historyPosition st := sum]> (sumHistory st)
  /\ historyPosition st' = (uint_succ (historyPosition st) mod HISTORY_SIZE)%nat
  /\ historyFilled st' = primed_this_cycle st
  /\ AnalogArray st' = AnalogArray st
  /\ AnalogArrayPosition st' = AnalogArrayPosition st
  /\ wiggleSec st' = wiggleSec st
  /\ nextWiggleTime st' = nextWiggleTime st
  /\ randomCalls st' = randomCalls st.

(** ** Inside one firing of the scheduler *)

(** The sign a draw of [random(2)] selects: [(random(2) == 0) ? 1 : -1]. *)
Definition direction (raw : nat -> N) (k : nat) : Z :=
  if Z.rem (raw_random raw k) 2 =? 0 then 1 else -1.

(** The interval [sendWiggle] chooses when it fires with [calls] draws
    already made. *)
Definition chosen_interval (raw : nat -> N) (calls : nat) : Z :=
  let drawn :=
    wrap_int (ladd wigglePeriod
                (fst (random_between raw (- wigglePeriodVariation)
                        (wigglePeriodVariation + 1) calls))) in
  if drawn <? 3 then 3 else drawn.

(** ** Executions *)

Definition is_sample (tk : tick) : bool :=
  match tk with Timer1 _ => true | Timer3 => false end.

(** How many samples a sequence of interrupts stores. *)
Definition samples_in (tks : list tick) : nat := length (List.filter is_sample tks).

(** The state after [n] samples: [c] windows have been closed; during
    the first five the history index counts them, the history is not
    marked as filled and the flag still has its initial value. *)
Definition warming_up (n : nat) (st : state) : Prop :=
  wf st
  /\ exists c : nat,
       n = (SizeOfAnalogArray * c + AnalogArrayPosition st)%nat
       /\ ((c < HISTORY_SIZE)%nat ->
           historyPosition st = c /\ historyFilled st = false
           /\ lightStatus st = true)
       /\ ((HISTORY_SIZE <= c)%nat -> historyFilled st = true).

(** The interrupt [t] was a tick of Timer3 that found the interval
    elapsed. *)
Definition trigger (t : transition) : Prop :=
  fired t = Timer3
  /\ nextWiggleTime (before t) <= wrap_int (wiggleSec (before t) + 1).

(** The interrupt [t] moved the pointer one step diagonally and back. *)
Definition wiggled (t : transition) : Prop :=
  exists dx dy,
    (dx = 1 \/ dx = -1) /\ (dy = 1 \/ dy = -1)
    /\ moves (emitted t) = [MouseMove dx dy 0; MouseMove (- dx) (- dy) 0].

(** The interrupt [t] found the flag true and left it false. *)
Definition switches_off (t : transition) : Prop :=
  lightStatus (before t) = true /\ lightStatus (after t) = false.

(** The sensor has returned [c] since power-on: the slots written in
    the current window hold [c], the flag is still true, and after the
    first closed window the previous sum is that of a full window of
    [c]. *)
Definition steady (c : Z) (st : state) : Prop :=
  live st
  /\ lightStatus st = true
  /\ (forall i, (i < AnalogArrayPosition st)%nat -> AnalogArray st !! i = Some c)
  /\ ((historyPosition st = 0%nat /\ historyFilled st = false)
      \/ priorSum st = Z.of_nat SizeOfAnalogArray * c).

(** The window sums that the diagnostic lines of a run report. *)
Fixpoint logged_sums (evs : list event) : list Z :=
  match evs with
  | [] => []
  | Println (Diagnostic _ sum _ _ _) :: evs' => sum :: logged_sums evs'
  | _ :: evs' => logged_sums evs'
  end.

(** Everything emitted from power-on to the end of [tks]. *)
Definition boot_and_emit (raw : nat -> N) (serial : bool) (sensor : nat -> Z)
    (tks : list tick) : option (list event) :=
  match setup sensor power_on with
  | None => None
  | Some st =>
      match trace raw serial tks st with
      | None => None
      | Some tr => Some (concat (map emitted tr))
      end
  end.

(** ** Sequences of window sums *)

(** A sequence of window sums in which every step stays below 16
    percent of the sum before it. *)
Fixpoint gentle (prior : Z) (sums : list Z) : Prop :=
  match sums with
  | [] => True
  | sum :: sums' =>
      0 < sum <= SUM_MAX
      /\ Z.abs (sum - prior) * 100 < 16 * prior
      /\ gentle sum sums'
  end.

(** Window sums that move away from [from] by [slope] per cycle:
    [from + slope], [from + 2 * slope], ... ([n] of them). *)
Fixpoint ramp (from slope : Z) (n : nat) : list Z :=
  match n with
  | O => []
  | S n' => (from + slope) :: ramp (from + slope) slope n'
  end.

(** ** Example states and inputs *)

(** A primed state one tick before the window closes: the previous
    window summed to 45200, the current one holds 678 in every slot. *)
Definition switch_on_example : state := {|
  AnalogArray := replicate SizeOfAnalogArray 678;
  AnalogArrayPosition := 99%nat;
  lightStatus := false;
  priorSum := 45200;
  sumHistory := replicate HISTORY_SIZE 45200;
  historyPosition := 2%nat;
  historyFilled := true;
  wiggleSec := 0;
  nextWiggleTime := wigglePeriod;
  randomCalls := 0%nat
|}.

(** A primed state at the baseline 45200. *)
Definition baseline_example : state := {|
  AnalogArray := replicate SizeOfAnalogArray 452;
  AnalogArrayPosition := 0%nat;
  lightStatus := false;
  priorSum := 45200;
  sumHistory := replicate HISTORY_SIZE 45200;
  historyPosition := 3%nat;
  historyFilled := true;
  wiggleSec := 0;
  nextWiggleTime := wigglePeriod;
  randomCalls := 0%nat
|}.

(** A sensor that reads 0 throughout start-up and the first window. *)
Definition dark_start : state := {|
  AnalogArray := replicate SizeOfAnalogArray 0;
  AnalogArrayPosition := 99%nat;
  lightStatus := true;
  priorSum := 0;
  sumHistory := replicate HISTORY_SIZE 0;
  historyPosition := 0%nat;
  historyFilled := false;
  wiggleSec := 0;
  nextWiggleTime := wigglePeriod;
  randomCalls := 0%nat
|}.

(** A state in which the next tick of Timer3 fires. *)
Definition due_example (lit : bool) : state := {|
  AnalogArray := replicate SizeOfAnalogArray 500;
  AnalogArrayPosition := 0%nat;
  lightStatus := lit;
  priorSum := 50000;
  sumHistory := replicate HISTORY_SIZE 50000;
  historyPosition := 0%nat;
  historyFilled := true;
  wiggleSec := 9;
  nextWiggleTime := 10;
  randomCalls := 0%nat
|}.

(** Ten seconds of a steady sensor at 100, the value it also had during
    [setup]. *)
Definition steady_baseline : list tick := replicate 1000 (Timer1 100).

(** Dusk: during second [k] every sample reads [100 - k], so that the
    window sum falls by 100, one percent of the baseline 10000, per
    cycle. *)
Definition dusk (seconds : nat) : list tick :=
  flat_map (fun k => replicate SizeOfAnalogArray (Timer1 (100 - Z.of_nat k)))
           (seq 1 seconds).

(** ** Tactics *)

(** Read the fields of an updated state without unfolding the
    arithmetic inside them. *)
Ltac fields :=
  cbn [store_sample AnalogArray AnalogArrayPosition lightStatus priorSum
       sumHistory historyPosition historyFilled wiggleSec nextWiggleTime
       randomCalls] in *.

(** ** Diagnostic lines *)

(** The [(priorSum, sum)] pairs of the diagnostic lines among the
    events. *)
Fixpoint diagnostics (evs : list event) : list (Z * Z) :=
  match evs with
  | [] => []
  | Println (Diagnostic prior sum _ _ _) :: evs' => (prior, sum) :: diagnostics evs'
  | _ :: evs' => diagnostics evs'
  end.

(** Each line reports as its prior sum the sum of the line before;
    the first one reports [prior]. *)
Fixpoint chained (prior : Z) (lines : list (Z * Z)) : Prop :=
  match lines with
  | [] => True
  | (a, b) :: lines' => a = prior /\ chained b lines'
  end.

(** The sum of the last line, or [prior] when there is none. *)
Fixpoint final_sum (prior : Z) (lines : list (Z * Z)) : Z :=
  match lines with
  | [] => prior
  | (_, b) :: lines' => final_sum b lines'
  end.

(** ** Further example states *)

(** A primed state one tick before the window closes, under a passing
    cloud: the previous window summed to 45200, the current one holds
    500 in every slot. *)
Definition cloud_example : state := {|
  AnalogArray := replicate SizeOfAnalogArray 500;
  AnalogArrayPosition := 99%nat;
  lightStatus := true;
  priorSum := 45200;
  sumHistory := replicate HISTORY_SIZE 45200;
  historyPosition := 1%nat;
  historyFilled := true;
  wiggleSec := 0;
  nextWiggleTime := wigglePeriod;
  randomCalls := 0%nat
|}.


(** ** Further executions and views *)

(** Start-up with the sensor at 500, a first window at 500 and a second
    one at 100: a sudden fall while the history is not yet primed. *)
Definition early_fall : list tick :=
  replicate 100 (Timer1 500) ++ replicate 100 (Timer1 100).

(** The same start, three more windows at 100, and a sixth window at
    50 up to its last sample. *)
Definition late_fall : list tick :=
  early_fall ++ replicate 300 (Timer1 100) ++ replicate 99 (Timer1 50).

(** The scheduler between two triggers: the counter is below the
    interval, and the interval is at most [wigglePeriod +
    wigglePeriodVariation]. *)
Definition armed (st : state) : Prop :=
  0 <= wiggleSec st < nextWiggleTime st
  /\ nextWiggleTime st <= wigglePeriod + wigglePeriodVariation.

(** The variables of the sampler and classifier, [lightStatus]
    included. *)
Definition sampler_view (st : state)
  : list Z * nat * bool * Z * list Z * nat * bool :=
  (AnalogArray st, AnalogArrayPosition st, lightStatus st, priorSum st,
   sumHistory st, historyPosition st, historyFilled st).

(** The variables of the scheduler. *)
Definition scheduler_view (st : state) : Z * Z * nat :=
  (wiggleSec st, nextWiggleTime st, randomCalls st).

(** * Properties *)

(** ** Machine arithmetic inside its range *)

Lemma wrap_long_id (z : Z) : LONG_MIN <= z <= LONG_MAX -> wrap_long z = z.
Proof.
  unfold wrap_long, LONG_MIN, LONG_MAX. intros Hz.
  rewrite Z.mod_small by lia. lia.
Qed.

Lemma wrap_int_id (z : Z) : -32768 <= z <= 32767 -> wrap_int z = z.
Proof.
  unfold wrap_int. intros Hz. rewrite Z.mod_small by lia. lia.
Qed.

Lemma wrap_uint_range (z : Z) : 0 <= wrap_uint z <= 65535.
Proof.
  unfold wrap_uint. pose proof (Z.mod_pos_bound z 65536). lia.
Qed.

Lemma wrap_uint_id (z : Z) : 0 <= z <= 65535 -> wrap_uint z = z.
Proof. unfold wrap_uint. intros Hz. apply Z.mod_small. lia. Qed.

Lemma uint_succ_small (n : nat) : Z.of_nat n < 65535 -> uint_succ n = S n.
Proof.
  intros Hn. unfold uint_succ. rewrite wrap_uint_id by lia. lia.
Qed.

Lemma abs_small (x : Z) : LONG_MIN < x <= LONG_MAX -> abs x = Z.abs x.
Proof.
  unfold abs, lneg, LONG_MIN, LONG_MAX. intros Hx.
  destruct (Z.ltb_spec 0 x).
  - lia.
  - rewrite wrap_long_id by (unfold LONG_MIN, LONG_MAX; lia). lia.
Qed.

(** ** The window sum *)

Lemma total_range (l : list Z) :
  Forall sample_ok l -> 0 <= total l <= 65535 * Z.of_nat (length l).
Proof.
  induction 1 as [|v l Hv _ IH]; simpl.
  - lia.
  - unfold sample_ok in Hv. lia.
Qed.

Lemma total_replicate (n : nat) (c : Z) : total (replicate n c) = Z.of_nat n * c.
Proof.
  induction n as [|n IH].
  - reflexivity.
  - change (total (replicate (S n) c)) with (c + total (replicate n c)).
    rewrite IH. lia.
Qed.

Lemma sum_loop_total (n : nat) : forall (c : nat) (arr : list Z) (acc : Z),
  Forall sample_ok arr ->
  (c + n <= length arr)%nat ->
  0 <= acc -> acc + 65535 * Z.of_nat n <= LONG_MAX ->
  sum_loop n c arr acc = Some (acc + total (take n (drop c arr))).
Proof.
  induction n as [|n IH]; intros c arr acc Hok Hlen Hacc Hmax.
  - simpl. f_equal. lia.
  - destruct (lookup_lt_is_Some_2 arr c) as [v Hv]; [lia|].
    assert (Hvok : sample_ok v).
    { eapply Forall_lookup_1; eauto. }
    unfold sample_ok in Hvok.
    cbn [sum_loop]. rewrite Hv.
    unfold ladd. rewrite wrap_long_id by (unfold LONG_MIN, LONG_MAX in *; lia).
    rewrite IH; try assumption; try lia.
    rewrite (drop_S _ _ _ Hv). simpl. f_equal. lia.
Qed.

Lemma window_sum_total (arr : list Z) :
  Forall sample_ok arr -> length arr = SizeOfAnalogArray ->
  window_sum arr = Some (total arr).
Proof.
  intros Hok Hlen. unfold window_sum.
  rewrite sum_loop_total; try assumption.
  - rewrite drop_0, firstn_all2 by lia. reflexivity.
  - lia.
  - lia.
  - unfold SizeOfAnalogArray, LONG_MAX. lia.
Qed.

Lemma window_total_ok (arr : list Z) :
  Forall sample_ok arr -> length arr = SizeOfAnalogArray -> sum_ok (total arr).
Proof.
  intros Hok Hlen. pose proof (total_range arr Hok) as H.
  rewrite Hlen in H. unfold sum_ok, SUM_MAX, SizeOfAnalogArray in *. lia.
Qed.

(** ** The two percentages inside the range of the sums *)

Lemma percentChange_of_pct (sum prior : Z) :
  sum_ok sum -> sum_ok prior -> prior <> 0 ->
  percentChange_of sum prior = Some (pct sum prior).
Proof.
  unfold sum_ok, SUM_MAX, percentChange_of, pct, ldiv, lmul, lsub.
  intros Hs Hp Hnz.
  rewrite (wrap_long_id (sum - prior)) by (unfold LONG_MIN, LONG_MAX; lia).
  rewrite wrap_long_id by (unfold LONG_MIN, LONG_MAX; lia).
  destruct (Z.eqb_spec prior 0); [contradiction|].
  destruct (Z.eqb_spec prior (-1)); [lia|].
  rewrite andb_false_r. reflexivity.
Qed.

Lemma rateOfChange_of_rate (sum oldest : Z) :
  sum_ok sum -> sum_ok oldest -> oldest <> 0 ->
  rateOfChange_of sum oldest = Some (rate sum oldest).
Proof.
  unfold sum_ok, SUM_MAX, rateOfChange_of, rate, ldiv, lmul, lsub.
  change (Z.of_nat HISTORY_SIZE) with 5. intros Hs Hp Hnz.
  rewrite (wrap_long_id (sum - oldest)) by (unfold LONG_MIN, LONG_MAX; lia).
  rewrite !wrap_long_id by (unfold LONG_MIN, LONG_MAX; lia).
  destruct (Z.eqb_spec (oldest * 5) 0); [lia|].
  destruct (Z.eqb_spec (oldest * 5) (-1)); [lia|].
  rewrite andb_false_r. reflexivity.
Qed.

Lemma percentChange_of_zero (sum : Z) : percentChange_of sum 0 = None.
Proof. reflexivity. Qed.

Lemma rateOfChange_of_zero (sum : Z) : rateOfChange_of sum 0 = None.
Proof. reflexivity. Qed.

Lemma rate_bounds (sum oldest : Z) :
  sum_ok sum -> sum_ok oldest -> 0 < oldest ->
  - 100 <= rate sum oldest <= 100 * SUM_MAX.
Proof.
  unfold sum_ok, SUM_MAX, rate. change (Z.of_nat HISTORY_SIZE) with 5.
  intros Hs Hp Hpos.
  destruct (Z.le_gt_cases oldest sum).
  - split.
    + pose proof (Z.quot_pos ((sum - oldest) * 100) (oldest * 5)). lia.
    + apply Z.quot_le_upper_bound; nia.
  - assert (H1 : 0 <= (oldest - sum) * 100 ÷ (oldest * 5) <= 100).
    { split; [apply Z.quot_pos; lia|]. apply Z.quot_le_upper_bound; nia. }
    replace ((sum - oldest) * 100) with (- ((oldest - sum) * 100)) by lia.
    rewrite Z.quot_opp_l by lia. lia.
Qed.

(** ** Well-formed states *)

Lemma oldestSum_lookup (st : state) :
  wf st -> sumHistory st !! historyPosition st = Some (oldestSum st).
Proof.
  intros Hwf. unfold oldestSum.
  destruct (lookup_lt_is_Some_2 (sumHistory st) (historyPosition st)) as [v Hv].
  - rewrite (wf_hlength _ Hwf). apply (wf_hposition _ Hwf).
  - rewrite Hv. reflexivity.
Qed.

Lemma oldestSum_ok (st : state) : wf st -> sum_ok (oldestSum st).
Proof.
  intros Hwf. eapply Forall_lookup_1.
  - apply (wf_history _ Hwf).
  - apply oldestSum_lookup, Hwf.
Qed.

Lemma classify_untouched (serial : bool) (pc r : Z) (b : bool) :
  classify serial false pc r b = (b, []).
Proof. reflexivity. Qed.

(** A cycle on non-zero reference sums runs to its end. *)
Lemma classification_cycle_runs (serial : bool) (sum : Z) (st : state) :
  wf st -> sum_ok sum -> priorSum st <> 0 -> oldestSum st <> 0 ->
  exists st' out,
    classification_cycle serial sum st = Some (st', out)
    /\ cycle_outcome serial sum st st' out.
Proof.
  intros Hwf Hsum Hp Ho.
  pose proof (wf_prior _ Hwf) as Hpok.
  pose proof (oldestSum_ok _ Hwf) as Hook.
  unfold classification_cycle, cycle_outcome.
  rewrite (percentChange_of_pct _ _ Hsum Hpok Hp).
  rewrite (oldestSum_lookup _ Hwf).
  rewrite (rateOfChange_of_rate _ _ Hsum Hook Ho).
  fold (primed_this_cycle st).
  assert (Hdiff : lsub sum (priorSum st) = sum - priorSum st).
  { unfold lsub. apply wrap_long_id.
    unfold sum_ok, SUM_MAX, LONG_MIN, LONG_MAX in *. lia. }
  rewrite Hdiff.
  destruct (classify serial (primed_this_cycle st) (pct sum (priorSum st))
              (rate sum (oldestSum st)) (lightStatus st)) as [status verdict].
  eexists _, _. split; [reflexivity|]. simpl. repeat split; reflexivity.
Qed.

(** Without a reference sum the cycle has no defined result. *)
Lemma classification_cycle_zero_prior (serial : bool) (sum : Z) (st : state) :
  priorSum st = 0 -> classification_cycle serial sum st = None.
Proof.
  intros Hp. unfold classification_cycle. rewrite Hp, percentChange_of_zero.
  reflexivity.
Qed.

Lemma classification_cycle_zero_oldest (serial : bool) (sum : Z) (st : state) :
  wf st -> oldestSum st = 0 -> classification_cycle serial sum st = None.
Proof.
  intros Hwf Ho. unfold classification_cycle.
  destruct (percentChange_of sum (priorSum st)); [|reflexivity].
  rewrite (oldestSum_lookup _ Hwf), Ho, rateOfChange_of_zero. reflexivity.
Qed.

(** A cycle that ran to its end had non-zero reference sums. *)
Lemma classification_cycle_inv (serial : bool) (sum : Z) (st st' : state)
    (out : list event) :
  wf st -> sum_ok sum ->
  classification_cycle serial sum st = Some (st', out) ->
  0 < priorSum st /\ 0 < oldestSum st /\ cycle_outcome serial sum st st' out.
Proof.
  intros Hwf Hsum Hrun.
  destruct (Z.eq_dec (priorSum st) 0) as [Hp|Hp].
  { rewrite classification_cycle_zero_prior in Hrun by assumption. discriminate. }
  destruct (Z.eq_dec (oldestSum st) 0) as [Ho|Ho].
  { rewrite classification_cycle_zero_oldest in Hrun by assumption. discriminate. }
  destruct (classification_cycle_runs serial sum st Hwf Hsum Hp Ho)
    as (st1 & out1 & Hrun1 & Hout).
  rewrite Hrun1 in Hrun. injection Hrun as <- <-.
  pose proof (wf_prior _ Hwf) as Hpok. pose proof (oldestSum_ok _ Hwf) as Hook.
  unfold sum_ok in *. repeat split; try lia; apply Hout.
Qed.

Lemma history_step (hp : nat) :
  (hp < HISTORY_SIZE)%nat ->
  (uint_succ hp mod HISTORY_SIZE < HISTORY_SIZE)%nat.
Proof.
  intros _. apply Nat.mod_upper_bound. discriminate.
Qed.

Lemma classification_cycle_wf (serial : bool) (sum : Z) (st st' : state)
    (out : list event) :
  wf st -> sum_ok sum ->
  classification_cycle serial sum st = Some (st', out) -> wf st'.
Proof.
  intros Hwf Hsum Hrun.
  destruct (classification_cycle_inv _ _ _ _ _ Hwf Hsum Hrun)
    as (_ & _ & _ & Hprior & Hhist & Hhpos & _ & Harr & Hpos & _).
  destruct Hwf as [H1 H2 H3 H4 H5 H6 H7].
  constructor.
  - rewrite Harr. assumption.
  - rewrite Hpos. assumption.
  - rewrite Harr. assumption.
  - rewrite Hhist, length_insert. assumption.
  - rewrite Hhpos. apply history_step. assumption.
  - rewrite Hprior. assumption.
  - rewrite Hhist. apply Forall_insert; assumption.
Qed.

(** ** One tick of Timer1 *)

Lemma store_sample_wf (reading : Z) (st : state) : wf st -> wf (store_sample reading st).
Proof.
  intros [H1 H2 H3 H4 H5 H6 H7]. constructor; fields; try assumption.
  - rewrite length_insert. assumption.
  - apply Nat.mod_upper_bound. discriminate.
  - apply Forall_insert; [assumption | apply wrap_uint_range].
Qed.

Lemma store_sample_position (reading : Z) (st : state) :
  wf st ->
  AnalogArrayPosition (store_sample reading st) =
    if (S (AnalogArrayPosition st) =? SizeOfAnalogArray)%nat then 0%nat
    else S (AnalogArrayPosition st).
Proof.
  intros Hwf. pose proof (wf_position _ Hwf) as Hpos. fields.
  unfold SizeOfAnalogArray in *.
  rewrite uint_succ_small by lia.
  destruct (Nat.eqb_spec (S (AnalogArrayPosition st)) 100) as [->|Hne].
  - reflexivity.
  - apply Nat.mod_small. lia.
Qed.

(** Inside the window the tick only stores the sample. *)
Lemma readAnalogIntoArray_inside (serial : bool) (reading : Z) (st : state) :
  wf st -> (S (AnalogArrayPosition st) < SizeOfAnalogArray)%nat ->
  readAnalogIntoArray serial reading st = Some (store_sample reading st, []).
Proof.
  intros Hwf Hpos. unfold readAnalogIntoArray.
  rewrite (wf_length _ Hwf).
  destruct (Nat.ltb_spec (AnalogArrayPosition st) SizeOfAnalogArray); [|lia].
  rewrite (store_sample_position _ _ Hwf).
  destruct (Nat.eqb_spec (S (AnalogArrayPosition st)) SizeOfAnalogArray); [lia|].
  reflexivity.
Qed.

(** At the last slot the tick runs one classification cycle on the sum
    of the window it has just completed. *)
Lemma readAnalogIntoArray_wraps (serial : bool) (reading : Z) (st : state) :
  wf st -> S (AnalogArrayPosition st) = SizeOfAnalogArray ->
  readAnalogIntoArray serial reading st =
    classification_cycle serial (total (closing_window reading st))
                         (store_sample reading st).
Proof.
  intros Hwf Hpos. unfold readAnalogIntoArray.
  rewrite (wf_length _ Hwf).
  destruct (Nat.ltb_spec (AnalogArrayPosition st) SizeOfAnalogArray); [|lia].
  rewrite (store_sample_position _ _ Hwf).
  destruct (Nat.eqb_spec (S (AnalogArrayPosition st)) SizeOfAnalogArray); [|lia].
  pose proof (store_sample_wf reading st Hwf) as Hwf1.
  rewrite (window_sum_total _ (wf_samples _ Hwf1) (wf_length _ Hwf1)).
  reflexivity.
Qed.

Lemma closing_window_ok (reading : Z) (st : state) :
  wf st -> sum_ok (total (closing_window reading st)).
Proof.
  intros Hwf. pose proof (store_sample_wf reading st Hwf) as Hwf1.
  apply window_total_ok; [apply (wf_samples _ Hwf1) | apply (wf_length _ Hwf1)].
Qed.

Lemma readAnalogIntoArray_wf (serial : bool) (reading : Z) (st st' : state)
    (out : list event) :
  wf st -> readAnalogIntoArray serial reading st = Some (st', out) -> wf st'.
Proof.
  intros Hwf Hrun.
  destruct (Nat.eq_dec (S (AnalogArrayPosition st)) SizeOfAnalogArray) as [Hlast|Hin].
  - rewrite (readAnalogIntoArray_wraps _ _ _ Hwf Hlast) in Hrun.
    eapply classification_cycle_wf; [| |exact Hrun].
    + apply store_sample_wf, Hwf.
    + apply closing_window_ok, Hwf.
  - pose proof (wf_position _ Hwf).
    rewrite readAnalogIntoArray_inside in Hrun by (assumption || lia).
    injection Hrun as <- <-. apply store_sample_wf, Hwf.
Qed.

(** ** The classification rule *)

(** C1.  A tick that closes a window while the history is primed and
    both reference sums are positive runs the cycle to its end; it sets
    [lightStatus] to true when [percentChange > 15] and
    [|rateOfChange| > 5], to false when [percentChange < -15] and
    [|rateOfChange| > 5], and leaves it alone in every other case.  The
    verdict line goes through [if (Serial) Serial.println(..)].  From
    [priorSum = 45200] to [sum = 67800] the percent change is exactly 50,
    and with a rate above 5 the flag becomes true and the "Lights
    Detected ON (sudden change)" line is logged. *)
Theorem sudden_change_rule (serial : bool) (reading : Z) (st : state) :
  wf st ->
  S (AnalogArrayPosition st) = SizeOfAnalogArray ->
  primed_this_cycle st = true ->
  0 < priorSum st -> 0 < oldestSum st ->
  let sum := total (closing_window reading st) in
  let pc := pct sum (priorSum st) in
  let r := rate sum (oldestSum st) in
  let line := log serial (Diagnostic (priorSum st) sum (sum - priorSum st) pc r) in
  exists st' out,
    readAnalogIntoArray serial reading st = Some (st', out)
    /\ (15 < pc /\ 5 < Z.abs r ->
        lightStatus st' = true /\ out = line ++ log serial LightsOn)
    /\ (pc < -15 /\ 5 < Z.abs r ->
        lightStatus st' = false /\ out = line ++ log serial LightsOff)
    /\ (~ (15 < pc /\ 5 < Z.abs r) -> ~ (pc < -15 /\ 5 < Z.abs r) ->
        lightStatus st' = lightStatus st
        /\ ~ In (Println LightsOn) out /\ ~ In (Println LightsOff) out)
    /\ (priorSum st = 45200 -> sum = 67800 ->
        pc = 50
        /\ (5 < r -> lightStatus st' = true /\ out = line ++ log serial LightsOn)).
Proof.
  intros Hwf Hlast Hprimed Hp Ho sum pc r line.
  pose proof (store_sample_wf reading st Hwf) as Hwf1.
  pose proof (closing_window_ok reading st Hwf) as Hsum.
  destruct (classification_cycle_runs serial sum (store_sample reading st) Hwf1 Hsum)
    as (st' & out & Hrun & Hres & _).
  { fields. lia. }
  { change (oldestSum (store_sample reading st)) with (oldestSum st). lia. }
  change (oldestSum (store_sample reading st)) with (oldestSum st) in Hres.
  change (primed_this_cycle (store_sample reading st))
    with (primed_this_cycle st) in Hres.
  fields. rewrite Hprimed in Hres. cbv zeta in Hres.
  fold sum in Hres. fold pc in Hres. fold r in Hres. fold line in Hres.
  assert (Hr : LONG_MIN < r <= LONG_MAX).
  { pose proof (rate_bounds sum (oldestSum st) Hsum (oldestSum_ok _ Hwf) Ho) as Hb.
    fold r in Hb. unfold SUM_MAX, LONG_MIN, LONG_MAX in *. lia. }
  unfold classify, SUDDEN_CHANGE_THRESHOLD, CHANGE_RATE_THRESHOLD in Hres.
  rewrite (abs_small r Hr) in Hres.
  change (- (15)) with (-15) in Hres.
  assert (Hcases :
    (15 < pc /\ 5 < Z.abs r -> lightStatus st' = true /\ out = line ++ log serial LightsOn)
    /\ (pc < -15 /\ 5 < Z.abs r ->
        lightStatus st' = false /\ out = line ++ log serial LightsOff)
    /\ (~ (15 < pc /\ 5 < Z.abs r) -> ~ (pc < -15 /\ 5 < Z.abs r) ->
        lightStatus st' = lightStatus st
        /\ ~ In (Println LightsOn) out /\ ~ In (Println LightsOff) out)).
  { assert (Hline : forall m, In (Println m) line -> exists a b c d e, m = Diagnostic a b c d e).
    { intros m. unfold line, log. destruct serial; simpl; [|tauto].
      intros [Heq|[]]. injection Heq as <-. eauto 6. }
    destruct (Z.ltb_spec 15 pc) as [H15|H15];
      destruct (Z.ltb_spec 5 (Z.abs r)) as [H5|H5];
      destruct (Z.ltb_spec pc (-15)) as [Hm15|Hm15];
      cbn [andb] in Hres;
      try (destruct ((5 <? abs pc) && (Z.abs r <=? 5)));
      injection Hres as -> ->;
      (split; [intros [? ?]; try lia; split; reflexivity|]);
      (split; [intros [? ?]; try lia; split; reflexivity|]);
      intros Hn1 Hn2; try (exfalso; apply Hn1; split; assumption);
      try (exfalso; apply Hn2; split; assumption);
      (split; [reflexivity|]);
      split; rewrite in_app_iff; intros [Hin|Hin];
      try (apply Hline in Hin; destruct Hin as (a & b & c & d & e & Hin); discriminate);
      try (unfold log in Hin; destruct serial; simpl in Hin;
           intuition discriminate). }
  exists st', out.
  rewrite (readAnalogIntoArray_wraps _ _ _ Hwf Hlast). fold sum.
  split; [exact Hrun|].
  destruct Hcases as (Hon & Hoff & Hkeep).
  split; [exact Hon|]. split; [exact Hoff|]. split; [exact Hkeep|].
  intros Hprior45200 Hsum67800.
  assert (Hpc : pc = 50).
  { unfold pc. rewrite Hprior45200, Hsum67800. reflexivity. }
  split; [exact Hpc|].
  intros Hrate. apply Hon. lia.
Qed.

Lemma switch_on_example_wf : wf switch_on_example.
Proof.
  constructor; fields; unfold switch_on_example; fields.
  - apply length_replicate.
  - unfold SizeOfAnalogArray. lia.
  - apply Forall_replicate. unfold sample_ok. lia.
  - apply length_replicate.
  - unfold HISTORY_SIZE. lia.
  - unfold sum_ok, SUM_MAX. lia.
  - apply Forall_replicate. unfold sum_ok, SUM_MAX. lia.
Qed.

Lemma sudden_change_rule_witness :
  exists st' out,
    readAnalogIntoArray true 678 switch_on_example = Some (st', out)
    /\ lightStatus st' = true
    /\ out = [Println (Diagnostic 45200 67800 22600 50 10); Println LightsOn].
Proof.
  destruct (sudden_change_rule true 678 switch_on_example switch_on_example_wf)
    as (st' & out & Hrun & Hon & _).
  - reflexivity.
  - reflexivity.
  - reflexivity.
  - reflexivity.
  - exists st', out. split; [exact Hrun|]. apply Hon. vm_compute. split; reflexivity.
Defined.

(** ** Reference sums of zero *)

(** C2, as amended.  The sketch has no guard on the reference sums.
    They are never negative, being sums of unsigned samples; the tick
    that closes a window always evaluates both divisions, and it has a
    defined result exactly when [priorSum] and the evicted history sum
    are both positive. *)
Theorem reference_sums_unguarded (serial : bool) (reading : Z) (st : state) :
  wf st ->
  S (AnalogArrayPosition st) = SizeOfAnalogArray ->
  0 <= priorSum st
  /\ 0 <= oldestSum st
  /\ ((0 < priorSum st /\ 0 < oldestSum st)
      <-> exists st' out, readAnalogIntoArray serial reading st = Some (st', out)).
Proof.
  intros Hwf Hlast.
  pose proof (wf_prior _ Hwf) as Hp. pose proof (oldestSum_ok _ Hwf) as Ho.
  unfold sum_ok in Hp, Ho.
  split; [lia|]. split; [lia|].
  rewrite (readAnalogIntoArray_wraps _ _ _ Hwf Hlast).
  pose proof (store_sample_wf reading st Hwf) as Hwf1.
  split.
  - intros [Hp1 Ho1].
    destruct (classification_cycle_runs serial (total (closing_window reading st))
                (store_sample reading st) Hwf1 (closing_window_ok _ _ Hwf))
      as (st' & out & Hrun & _).
    + fields. lia.
    + change (oldestSum (store_sample reading st)) with (oldestSum st). lia.
    + eauto.
  - intros (st' & out & Hrun).
    destruct (Z.eq_dec (priorSum st) 0) as [Hp0|Hp0].
    { rewrite classification_cycle_zero_prior in Hrun by exact Hp0. discriminate. }
    destruct (Z.eq_dec (oldestSum st) 0) as [Ho0|Ho0].
    { rewrite classification_cycle_zero_oldest in Hrun by assumption. discriminate. }
    lia.
Qed.

Lemma reference_sums_unguarded_witness :
  0 <= priorSum switch_on_example
  /\ 0 <= oldestSum switch_on_example
  /\ ((0 < priorSum switch_on_example /\ 0 < oldestSum switch_on_example)
      <-> exists st' out,
            readAnalogIntoArray true 678 switch_on_example = Some (st', out)).
Proof.
  apply (reference_sums_unguarded true 678 switch_on_example switch_on_example_wf).
  reflexivity.
Defined.

(** C2 as stated fails: with [priorSum = 0] the cycle is not skipped.
    [dark_start] is the state 99 ticks after a start-up in which the
    sensor read 0; the tick that closes the window divides by the zero
    [priorSum] and has no defined result, rather than returning with the
    flag kept. *)
Lemma zero_prior_sum_is_divided_by :
  boot_and_run (fun _ => 0%N) true (fun _ => 0) (replicate 99 (Timer1 0))
    = Some dark_start
  /\ priorSum dark_start <= 0
  /\ ~ (exists st' out,
          readAnalogIntoArray true 0 dark_start = Some (st', out)
          /\ lightStatus st' = lightStatus dark_start).
Proof.
  split; [vm_compute; reflexivity|].
  split; [vm_compute; discriminate|].
  intros (st' & out & Hrun & _). vm_compute in Hrun. discriminate.
Qed.

(** ** Start-up *)

Lemma prefill_length (sensor : nat -> Z) (fuel : nat) :
  forall (counter k : nat) (arr : list Z),
    length (prefill fuel sensor counter k arr) = length arr.
Proof.
  induction fuel as [|fuel IH]; intros counter k arr; cbn [prefill].
  - reflexivity.
  - destruct (counter <? SizeOfAnalogArray)%nat; [|reflexivity].
    rewrite IH. apply length_insert.
Qed.

Lemma prefill_samples (sensor : nat -> Z) (fuel : nat) :
  forall (counter k : nat) (arr : list Z),
    Forall sample_ok arr -> Forall sample_ok (prefill fuel sensor counter k arr).
Proof.
  induction fuel as [|fuel IH]; intros counter k arr Hok; cbn [prefill].
  - assumption.
  - destruct (counter <? SizeOfAnalogArray)%nat; [|assumption].
    apply IH. apply Forall_insert; [assumption | apply wrap_uint_range].
Qed.

(** Slots below the loop counter are not written any more. *)
Lemma prefill_below (sensor : nat -> Z) (fuel : nat) :
  forall (counter k : nat) (arr : list Z) (i : nat),
    (i < counter)%nat -> prefill fuel sensor counter k arr !! i = arr !! i.
Proof.
  induction fuel as [|fuel IH]; intros counter k arr i Hi; cbn [prefill].
  - reflexivity.
  - destruct (counter <? SizeOfAnalogArray)%nat; [|reflexivity].
    rewrite IH by lia. apply list_lookup_insert_ne. lia.
Qed.

(** The slot at the counter and every second one after it receive the
    readings, in order. *)
Lemma prefill_written (sensor : nat -> Z) (fuel : nat) :
  forall (counter k : nat) (arr : list Z) (j : nat),
    (j < fuel)%nat -> length arr = SizeOfAnalogArray ->
    (counter + 2 * j < SizeOfAnalogArray)%nat ->
    prefill fuel sensor counter k arr !! (counter + 2 * j)%nat
      = Some (wrap_uint (sensor (k + j)%nat)).
Proof.
  induction fuel as [|fuel IH]; intros counter k arr j Hj Hlen Hin; [lia|].
  cbn [prefill].
  destruct (Nat.ltb_spec counter SizeOfAnalogArray); [|lia].
  destruct j as [|j].
  - rewrite prefill_below by lia.
    replace (counter + 2 * 0)%nat with counter by lia.
    replace (k + 0)%nat with k by lia.
    apply list_lookup_insert_eq. lia.
  - replace (counter + 2 * S j)%nat with (S (S counter) + 2 * j)%nat by lia.
    replace (k + S j)%nat with (S k + j)%nat by lia.
    apply IH; [lia | rewrite length_insert; assumption | lia].
Qed.

(** The slots in between are skipped: the loop never writes them. *)
Lemma prefill_skipped (sensor : nat -> Z) (fuel : nat) :
  forall (counter k : nat) (arr : list Z) (j : nat),
    prefill fuel sensor counter k arr !! (counter + 2 * j + 1)%nat
      = arr !! (counter + 2 * j + 1)%nat.
Proof.
  induction fuel as [|fuel IH]; intros counter k arr j; cbn [prefill].
  - reflexivity.
  - destruct (counter <? SizeOfAnalogArray)%nat; [|reflexivity].
    destruct j as [|j].
    + rewrite prefill_below by lia. apply list_lookup_insert_ne. lia.
    + replace (counter + 2 * S j + 1)%nat with (S (S counter) + 2 * j + 1)%nat by lia.
      rewrite IH. apply list_lookup_insert_ne. lia.
Qed.

Lemma power_on_wf : wf power_on.
Proof.
  constructor; unfold power_on; fields.
  - apply length_replicate.
  - unfold SizeOfAnalogArray. lia.
  - apply Forall_replicate. unfold sample_ok. lia.
  - apply length_replicate.
  - unfold HISTORY_SIZE. lia.
  - unfold sum_ok, SUM_MAX. lia.
  - apply Forall_replicate. unfold sum_ok, SUM_MAX. lia.
Qed.

(** [setup] always completes, whatever the sensor returns, and leaves
    the sum of the array in [priorSum] and in every slot of the
    history. *)
Lemma setup_runs (sensor : nat -> Z) (st : state) :
  wf st ->
  exists st',
    setup sensor st = Some st'
    /\ wf st'
    /\ AnalogArray st' = prefill SizeOfAnalogArray sensor 0 0 (AnalogArray st)
    /\ priorSum st' = total (AnalogArray st')
    /\ sumHistory st' = replicate HISTORY_SIZE (total (AnalogArray st'))
    /\ AnalogArrayPosition st' = AnalogArrayPosition st
    /\ historyPosition st' = historyPosition st
    /\ historyFilled st' = historyFilled st
    /\ lightStatus st' = lightStatus st
    /\ wiggleSec st' = wiggleSec st
    /\ nextWiggleTime st' = nextWiggleTime st.
Proof.
  intros Hwf. unfold setup.
  set (arr := prefill SizeOfAnalogArray sensor 0 0 (AnalogArray st)).
  assert (Hlen : length arr = SizeOfAnalogArray).
  { unfold arr. rewrite prefill_length. apply (wf_length _ Hwf). }
  assert (Hok : Forall sample_ok arr).
  { unfold arr. apply prefill_samples, (wf_samples _ Hwf). }
  rewrite (window_sum_total arr Hok Hlen).
  eexists. split; [reflexivity|]. fields.
  split; [|repeat split; reflexivity].
  constructor; fields.
  - assumption.
  - apply (wf_position _ Hwf).
  - assumption.
  - apply length_replicate.
  - apply (wf_hposition _ Hwf).
  - apply window_total_ok; assumption.
  - apply Forall_replicate, window_total_ok; assumption.
Qed.

(** C4 fails on the code.  The pre-fill loop advances its counter
    twice per iteration, so [setup] stores a sensor reading in the even
    slots only: every odd slot of the window still holds the zero the
    array was created with, and the sum that primes [priorSum] and the
    history is the sum of fifty readings, not of a hundred. *)
Theorem setup_fills_every_other_slot (sensor : nat -> Z) :
  exists st,
    setup sensor power_on = Some st
    /\ (forall j : nat, (j < 50)%nat ->
          AnalogArray st !! (2 * j)%nat = Some (wrap_uint (sensor j))
          /\ AnalogArray st !! (2 * j + 1)%nat = Some 0)
    /\ priorSum st = total (AnalogArray st)
    /\ sumHistory st = replicate HISTORY_SIZE (priorSum st).
Proof.
  destruct (setup_runs sensor power_on power_on_wf)
    as (st & Hrun & _ & Harr & Hprior & Hhist & _).
  exists st. split; [exact Hrun|].
  split; [|split; [exact Hprior | rewrite Hprior; exact Hhist]].
  intros j Hj. rewrite Harr. split.
  - apply (prefill_written sensor SizeOfAnalogArray 0 0 _ j).
    + unfold SizeOfAnalogArray. lia.
    + apply length_replicate.
    + unfold SizeOfAnalogArray. lia.
  - rewrite (prefill_skipped sensor SizeOfAnalogArray 0 0 _ j).
    unfold power_on. fields. apply lookup_replicate_2. unfold SizeOfAnalogArray. lia.
Qed.

(** With a steady sensor at 500 the window is half empty after
    [setup] and the stored sums are 25000 instead of 50000; the first
    cycle of the running sketch then reports a change of 100 percent. *)
Example setup_steady_500 :
  (exists st,
     setup (fun _ => 500) power_on = Some st
     /\ take 4 (AnalogArray st) = [500; 0; 500; 0]
     /\ priorSum st = 25000)
  /\ boot_and_emit (fun _ => 0%N) true (fun _ => 500) (replicate 100 (Timer1 500))
     = Some [Println (Diagnostic 25000 50000 25000 100 20)].
Proof.
  split.
  - eexists. split; [vm_compute; reflexivity|]. split; reflexivity.
  - vm_compute. reflexivity.
Qed.

(** ** The wiggle scheduler *)

Lemma raw_random_range (raw : nat -> N) (k : nat) :
  0 <= raw_random raw k <= LONG_MAX.
Proof.
  unfold raw_random, LONG_MAX.
  pose proof (Z.mod_pos_bound (Z.of_N (raw k)) 2147483648). lia.
Qed.

Lemma random_below_range (raw : nat -> N) (howbig : Z) (calls : nat) :
  0 < howbig -> 0 <= fst (random_below raw howbig calls) < howbig.
Proof.
  intros Hpos. unfold random_below.
  destruct (Z.eqb_spec howbig 0); [lia|]. cbn [fst].
  apply Z.rem_bound_pos; [apply raw_random_range | assumption].
Qed.

Lemma random_below_calls (raw : nat -> N) (howbig : Z) (calls : nat) :
  howbig <> 0 -> snd (random_below raw howbig calls) = S calls.
Proof.
  intros Hnz. unfold random_below.
  destruct (Z.eqb_spec howbig 0); [contradiction|]. reflexivity.
Qed.

(** The jitter [random(-wigglePeriodVariation, wigglePeriodVariation + 1)]. *)
Lemma jitter_range (raw : nat -> N) (calls : nat) :
  let '(r, calls') :=
    random_between raw (- wigglePeriodVariation) (wigglePeriodVariation + 1) calls in
  - wigglePeriodVariation <= r <= wigglePeriodVariation /\ calls' = S calls.
Proof.
  unfold random_between, wigglePeriodVariation.
  pose proof (random_below_range raw 7 calls ltac:(lia)) as Hr.
  pose proof (random_below_calls raw 7 calls ltac:(lia)) as Hc.
  change (3 + 1 <=? - (3)) with false. cbv iota.
  change (lsub (3 + 1) (- (3))) with 7.
  destruct (random_below raw 7 calls) as [r calls']. cbn [fst snd] in *.
  unfold ladd. rewrite wrap_long_id by (unfold LONG_MIN, LONG_MAX; lia).
  split; [lia | assumption].
Qed.

Lemma direction_unit (raw : nat -> N) (k : nat) :
  direction raw k = 1 \/ direction raw k = -1.
Proof. unfold direction. destruct (_ =? 0); auto. Qed.

Lemma chosen_interval_range (raw : nat -> N) (calls : nat) :
  wigglePeriod - wigglePeriodVariation <= chosen_interval raw calls
    <= wigglePeriod + wigglePeriodVariation.
Proof.
  unfold chosen_interval. pose proof (jitter_range raw calls) as Hj.
  destruct (random_between raw (- wigglePeriodVariation)
              (wigglePeriodVariation + 1) calls) as [r calls'].
  cbn [fst]. destruct Hj as [Hr _].
  unfold wigglePeriod, wigglePeriodVariation, ladd in *.
  rewrite wrap_long_id by (unfold LONG_MIN, LONG_MAX; lia).
  rewrite wrap_int_id by lia.
  destruct (Z.ltb_spec (10 + r) 3); lia.
Qed.

(** What a firing [sendWiggle] does, in one equation. *)
Lemma sendWiggle_fires (raw : nat -> N) (serial : bool) (st : state) :
  nextWiggleTime st <= wrap_int (wiggleSec st + 1) ->
  let next := chosen_interval raw (randomCalls st) in
  let dx := direction raw (S (randomCalls st)) in
  let dy := direction raw (S (S (randomCalls st))) in
  let '(st', out) := sendWiggle raw serial st in
  nextWiggleTime st' = next
  /\ wiggleSec st' = 0
  /\ lightStatus st' = lightStatus st
  /\ out = if lightStatus st
           then log serial (NeedWiggle next)
                  ++ [MouseMove dx dy 0; Delay 1;
                      MouseMove (wrap_int (- dx)) (wrap_int (- dy)) 0;
                      DigitalWrite led_pin true]
           else log serial DoNotWiggle ++ [DigitalWrite led_pin false].
Proof.
  intros Hfire. unfold sendWiggle, chosen_interval, direction.
  destruct (Z.leb_spec (nextWiggleTime st) (wrap_int (wiggleSec st + 1))); [|lia].
  pose proof (jitter_range raw (randomCalls st)) as Hj.
  destruct (random_between raw (- wigglePeriodVariation)
              (wigglePeriodVariation + 1) (randomCalls st)) as [r c1].
  destruct Hj as [_ ->]. cbn [fst].
  destruct (lightStatus st).
  - unfold random_below. cbn [Z.eqb]. cbv zeta.
    repeat split; reflexivity.
  - repeat split; reflexivity.
Qed.

Lemma sendWiggle_waits (raw : nat -> N) (serial : bool) (st : state) :
  wrap_int (wiggleSec st + 1) < nextWiggleTime st ->
  let '(st', out) := sendWiggle raw serial st in
  out = [] /\ nextWiggleTime st' = nextWiggleTime st
  /\ lightStatus st' = lightStatus st.
Proof.
  intros Hwait. unfold sendWiggle.
  destruct (Z.leb_spec (nextWiggleTime st) (wrap_int (wiggleSec st + 1))); [lia|].
  repeat split; reflexivity.
Qed.

(** [sendWiggle] leaves the sampler's variables and the flag alone. *)
Lemma sendWiggle_frame (raw : nat -> N) (serial : bool) (st : state) :
  let st' := fst (sendWiggle raw serial st) in
  AnalogArray st' = AnalogArray st
  /\ AnalogArrayPosition st' = AnalogArrayPosition st
  /\ lightStatus st' = lightStatus st
  /\ priorSum st' = priorSum st
  /\ sumHistory st' = sumHistory st
  /\ historyPosition st' = historyPosition st
  /\ historyFilled st' = historyFilled st.
Proof.
  unfold sendWiggle.
  destruct (nextWiggleTime st <=? wrap_int (wiggleSec st + 1)).
  - destruct (random_between raw (- wigglePeriodVariation)
                (wigglePeriodVariation + 1) (randomCalls st)) as [r c1].
    destruct (lightStatus st) eqn:Hflag.
    + destruct (random_below raw 2 c1) as [rx c2].
      destruct (random_below raw 2 c2) as [ry c3].
      cbn. repeat split; reflexivity.
    + cbn. repeat split; reflexivity.
  - cbn. repeat split; reflexivity.
Qed.

Lemma sendWiggle_wf (raw : nat -> N) (serial : bool) (st : state) :
  wf st -> wf (fst (sendWiggle raw serial st)).
Proof.
  intros [H1 H2 H3 H4 H5 H6 H7].
  destruct (sendWiggle_frame raw serial st) as (E1 & E2 & _ & E4 & E5 & E6 & _).
  constructor; rewrite ?E1, ?E2, ?E4, ?E5, ?E6; assumption.
Qed.

Lemma step_wf (raw : nat -> N) (serial : bool) (tk : tick) (st st' : state)
    (out : list event) :
  wf st -> step raw serial tk st = Some (st', out) -> wf st'.
Proof.
  intros Hwf Hstep. destruct tk as [reading|]; cbn [step] in Hstep.
  - eapply readAnalogIntoArray_wf; eassumption.
  - injection Hstep as Hst.
    change st' with (fst (st', out)). rewrite <- Hst.
    apply sendWiggle_wf, Hwf.
Qed.

Lemma run_wf (raw : nat -> N) (serial : bool) (tks : list tick) :
  forall st st' : state, wf st -> run raw serial tks st = Some st' -> wf st'.
Proof.
  induction tks as [|tk tks IH]; intros st st' Hwf Hrun; cbn [run] in Hrun.
  - injection Hrun as <-. assumption.
  - destruct (step raw serial tk st) as [[st1 out]|] eqn:Hstep; [|discriminate].
    apply (IH st1); [|assumption]. eapply step_wf; eassumption.
Qed.

(** Every state the sketch reaches from power-on is well formed. *)
Lemma boot_and_run_wf (raw : nat -> N) (serial : bool) (sensor : nat -> Z)
    (tks : list tick) (st : state) :
  boot_and_run raw serial sensor tks = Some st -> wf st.
Proof.
  unfold boot_and_run.
  destruct (setup_runs sensor power_on power_on_wf) as (st0 & -> & Hwf & _).
  apply run_wf, Hwf.
Qed.

(** A firing [sendWiggle] that reads the flag as true: out and back. *)
Lemma sendWiggle_lit (raw : nat -> N) (serial : bool) (st : state) :
  nextWiggleTime st <= wrap_int (wiggleSec st + 1) ->
  lightStatus st = true ->
  let dx := direction raw (S (randomCalls st)) in
  let dy := direction raw (S (S (randomCalls st))) in
  snd (sendWiggle raw serial st)
    = log serial (NeedWiggle (chosen_interval raw (randomCalls st)))
        ++ [MouseMove dx dy 0; Delay 1; MouseMove (- dx) (- dy) 0;
            DigitalWrite led_pin true]
  /\ moves (snd (sendWiggle raw serial st))
     = [MouseMove dx dy 0; MouseMove (- dx) (- dy) 0]
  /\ displacement (snd (sendWiggle raw serial st)) = (0, 0).
Proof.
  intros Hfire Hlit dx dy.
  pose proof (sendWiggle_fires raw serial st Hfire) as Hs.
  destruct (sendWiggle raw serial st) as [st' o].
  destruct Hs as (_ & _ & _ & Ho). rewrite Hlit in Ho. cbn [snd].
  fold dx dy in Ho.
  assert (Hdx : wrap_int (- dx) = - dx).
  { destruct (direction_unit raw (S (randomCalls st))) as [E|E];
      fold dx in E; rewrite E; reflexivity. }
  assert (Hdy : wrap_int (- dy) = - dy).
  { destruct (direction_unit raw (S (S (randomCalls st)))) as [E|E];
      fold dy in E; rewrite E; reflexivity. }
  rewrite Hdx, Hdy in Ho. subst o.
  split; [reflexivity|].
  destruct serial; cbn; split; try reflexivity; f_equal; lia.
Qed.

(** C7.  When [sendWiggle] fires and [lightStatus] reads true, it moves
    the pointer by [(dx, dy)], each sign chosen by its own draw of
    [random(2)], waits one millisecond and moves it by [(-dx, -dy)] in
    the same invocation, so the pointer ends where it was; any pair of
    signs can come out.  When the flag reads false no movement is
    requested. *)
Theorem wiggle_returns_pointer (raw : nat -> N) (serial : bool) (st : state) :
  nextWiggleTime st <= wrap_int (wiggleSec st + 1) ->
  let out := snd (sendWiggle raw serial st) in
  let dx := direction raw (S (randomCalls st)) in
  let dy := direction raw (S (S (randomCalls st))) in
  (lightStatus st = true ->
     (dx = 1 \/ dx = -1) /\ (dy = 1 \/ dy = -1)
     /\ out = log serial (NeedWiggle (chosen_interval raw (randomCalls st)))
                ++ [MouseMove dx dy 0; Delay 1; MouseMove (- dx) (- dy) 0;
                    DigitalWrite led_pin true]
     /\ moves out = [MouseMove dx dy 0; MouseMove (- dx) (- dy) 0]
     /\ displacement out = (0, 0)
     /\ (forall sx sy, (sx = 1 \/ sx = -1) -> (sy = 1 \/ sy = -1) ->
         exists raw', moves (snd (sendWiggle raw' serial st))
                      = [MouseMove sx sy 0; MouseMove (- sx) (- sy) 0]))
  /\ (lightStatus st = false -> moves out = [] /\ displacement out = (0, 0)).
Proof.
  intros Hfire out dx dy.
  split.
  - intros Hlit.
    split; [apply direction_unit|]. split; [apply direction_unit|].
    destruct (sendWiggle_lit raw serial st Hfire Hlit) as (H1 & H2 & H3).
    split; [exact H1|]. split; [exact H2|]. split; [exact H3|].
    intros sx sy Hsx Hsy.
    set (c := randomCalls st).
    exists (fun k => if (k =? S c)%nat
                     then (if sx =? 1 then 0%N else 1%N)
                     else (if sy =? 1 then 0%N else 1%N)).
    destruct (sendWiggle_lit (fun k => if (k =? S c)%nat
                                     then (if sx =? 1 then 0%N else 1%N)
                                     else (if sy =? 1 then 0%N else 1%N))
                serial st Hfire Hlit)
      as (_ & Hm & _).
    rewrite Hm. fold c. unfold direction, raw_random.
    rewrite Nat.eqb_refl.
    replace (S (S c) =? S c)%nat with false
      by (symmetry; apply Nat.eqb_neq; lia).
    destruct Hsx as [-> | ->], Hsy as [-> | ->]; reflexivity.
  - intros Hdark.
    pose proof (sendWiggle_fires raw serial st Hfire) as Hs.
    unfold out. destruct (sendWiggle raw serial st) as [st' o].
    destruct Hs as (_ & _ & _ & Ho). rewrite Hdark in Ho. cbn [snd]. subst o.
    destruct serial; split; reflexivity.
Qed.

Lemma wiggle_returns_pointer_witness :
  nextWiggleTime (due_example true) <= wrap_int (wiggleSec (due_example true) + 1)
  /\ snd (sendWiggle (fun k => N.of_nat k) true (due_example true))
     = [Println (NeedWiggle 7); MouseMove (-1) 1 0; Delay 1; MouseMove 1 (-1) 0;
        DigitalWrite led_pin true].
Proof.
  assert (Hfire : nextWiggleTime (due_example true)
                  <= wrap_int (wiggleSec (due_example true) + 1)).
  { vm_compute. discriminate. }
  split; [exact Hfire|].
  destruct (wiggle_returns_pointer (fun k => N.of_nat k) true (due_example true) Hfire)
    as [Hlit _].
  destruct (Hlit eq_refl) as (_ & _ & Hout & _).
  rewrite Hout. reflexivity.
Defined.

(** C8.  Every interval [sendWiggle] generates lies between the
    minimum of 3 seconds and [wigglePeriod + wigglePeriodVariation]; with
    the constants of the sketch it is one of 7, 8, 9, 10, 11, 12, 13. *)
Theorem next_interval_bounds (raw : nat -> N) (serial : bool) (st : state) :
  nextWiggleTime st <= wrap_int (wiggleSec st + 1) ->
  let next := nextWiggleTime (fst (sendWiggle raw serial st)) in
  3 <= next <= wigglePeriod + wigglePeriodVariation
  /\ In next [7; 8; 9; 10; 11; 12; 13].
Proof.
  intros Hfire next.
  pose proof (sendWiggle_fires raw serial st Hfire) as Hs.
  unfold next. destruct (sendWiggle raw serial st) as [st' o].
  cbn [fst]. destruct Hs as (-> & _).
  pose proof (chosen_interval_range raw (randomCalls st)) as Hr.
  unfold wigglePeriod, wigglePeriodVariation in *.
  split; [lia|].
  assert (Hc : chosen_interval raw (randomCalls st) = 7
               \/ chosen_interval raw (randomCalls st) = 8
               \/ chosen_interval raw (randomCalls st) = 9
               \/ chosen_interval raw (randomCalls st) = 10
               \/ chosen_interval raw (randomCalls st) = 11
               \/ chosen_interval raw (randomCalls st) = 12
               \/ chosen_interval raw (randomCalls st) = 13) by lia.
  cbn [In]. intuition auto.
Qed.

Lemma next_interval_bounds_witness :
  nextWiggleTime (due_example false) <= wrap_int (wiggleSec (due_example false) + 1)
  /\ 3 <= nextWiggleTime (fst (sendWiggle (fun _ => 6%N) false (due_example false)))
       <= wigglePeriod + wigglePeriodVariation
  /\ In (nextWiggleTime (fst (sendWiggle (fun _ => 6%N) false (due_example false))))
        [7; 8; 9; 10; 11; 12; 13].
Proof.
  assert (Hfire : nextWiggleTime (due_example false)
                  <= wrap_int (wiggleSec (due_example false) + 1)).
  { vm_compute. discriminate. }
  split; [exact Hfire|].
  exact (next_interval_bounds (fun _ => 6%N) false (due_example false) Hfire).
Defined.

(** Every one of the seven intervals does come out of some draw. *)
Lemma every_interval_is_drawn (t : Z) :
  In t [7; 8; 9; 10; 11; 12; 13] ->
  exists raw, chosen_interval raw 0 = t.
Proof.
  intros Hin. exists (fun _ => Z.to_N (t - 7)).
  cbn [In] in Hin.
  destruct Hin as [<-|[<-|[<-|[<-|[<-|[<-|[<-|[]]]]]]]]; reflexivity.
Qed.

(** ** The tick that closes a window, in full *)

Lemma percentages_bounds (sum prior oldest : Z) :
  sum_ok sum -> 0 < prior <= SUM_MAX -> 0 < oldest <= SUM_MAX ->
  -100 <= pct sum prior <= 655350000 /\ -20 <= rate sum oldest <= 131070000.
Proof.
  intros Hs Hp Ho.
  unfold sum_ok, SUM_MAX in *. unfold pct, rate.
  change (Z.of_nat HISTORY_SIZE) with 5.
  split; split.
  - assert (H : (- ((sum - prior) * 100)) ÷ prior <= 100)
      by (apply Z.quot_le_upper_bound; lia).
    rewrite Z.quot_opp_l in H by lia. lia.
  - apply Z.quot_le_upper_bound; lia.
  - assert (H : (- ((sum - oldest) * 100)) ÷ (oldest * 5) <= 20)
      by (apply Z.quot_le_upper_bound; lia).
    rewrite Z.quot_opp_l in H by lia. lia.
  - apply Z.quot_le_upper_bound; lia.
Qed.

Lemma classify_primed (serial : bool) (pc r : Z) (b : bool) :
  LONG_MIN < pc <= LONG_MAX -> LONG_MIN < r <= LONG_MAX ->
  classify serial true pc r b =
    if (15 <? pc) && (5 <? Z.abs r) then (true, log serial LightsOn)
    else if (pc <? -15) && (5 <? Z.abs r) then (false, log serial LightsOff)
    else if (5 <? Z.abs pc) && (Z.abs r <=? 5)
         then (b, log serial (GradualIgnored pc r))
         else (b, []).
Proof.
  intros Hpc Hr. unfold classify, SUDDEN_CHANGE_THRESHOLD, CHANGE_RATE_THRESHOLD.
  rewrite (abs_small pc Hpc), (abs_small r Hr). reflexivity.
Qed.

Lemma closing_tick (serial : bool) (reading : Z) (st : state) :
  wf st -> S (AnalogArrayPosition st) = SizeOfAnalogArray ->
  0 < priorSum st -> 0 < oldestSum st ->
  let sum := total (closing_window reading st) in
  let pc := pct sum (priorSum st) in
  let r := rate sum (oldestSum st) in
  exists st' out,
    readAnalogIntoArray serial reading st = Some (st', out)
    /\ (lightStatus st', out) =
         (let '(status, verdict) :=
            classify serial (primed_this_cycle st) pc r (lightStatus st) in
          (status,
           log serial (Diagnostic (priorSum st) sum (sum - priorSum st) pc r)
             ++ verdict))
    /\ priorSum st' = sum
    /\ sumHistory st' = <[historyPosition st := sum]> (sumHistory st)
    /\ historyPosition st' = (uint_succ (historyPosition st) mod HISTORY_SIZE)%nat
    /\ historyFilled st' = primed_this_cycle st
    /\ AnalogArray st' = closing_window reading st
    /\ AnalogArrayPosition st' = 0%nat
    /\ sum_ok sum
    /\ LONG_MIN < pc <= LONG_MAX
    /\ LONG_MIN < r <= LONG_MAX.
Proof.
  intros Hwf Hlast Hp Ho sum pc r.
  pose proof (store_sample_wf reading st Hwf) as Hwf1.
  pose proof (closing_window_ok reading st Hwf) as Hsum.
  destruct (classification_cycle_runs serial sum (store_sample reading st) Hwf1 Hsum)
    as (st' & out & Hrun & Hres & H1 & H2 & H3 & H4 & H5 & H6 & _).
  { fields. lia. }
  { change (oldestSum (store_sample reading st)) with (oldestSum st). lia. }
  exists st', out.
  rewrite (readAnalogIntoArray_wraps _ _ _ Hwf Hlast).
  split; [exact Hrun|]. split; [exact Hres|].
  split; [exact H1|]. split; [exact H2|]. split; [exact H3|]. split; [exact H4|].
  split; [exact H5|]. split.
  { rewrite H6, (store_sample_position _ _ Hwf), Hlast, Nat.eqb_refl. reflexivity. }
  split; [exact Hsum|].
  pose proof (wf_prior _ Hwf) as Hpok. pose proof (oldestSum_ok _ Hwf) as Hook.
  assert (Hpb : -100 <= pc <= 655350000 /\ -20 <= r <= 131070000).
  { apply (percentages_bounds sum (priorSum st) (oldestSum st)); try assumption;
      unfold sum_ok in *; lia. }
  unfold LONG_MIN, LONG_MAX. lia.
Qed.

(** ** Priming of the history *)

Lemma primed_below (c : nat) (st : state) :
  (S c < HISTORY_SIZE)%nat -> historyPosition st = c -> historyFilled st = false ->
  primed_this_cycle st = false
  /\ (uint_succ (historyPosition st) mod HISTORY_SIZE)%nat = S c.
Proof.
  unfold primed_this_cycle, HISTORY_SIZE. intros Hc -> ->.
  do 4 (destruct c as [|c]; [split; reflexivity|]). lia.
Qed.

Lemma primed_at_wrap (st : state) :
  historyPosition st = 4%nat -> primed_this_cycle st = true.
Proof. unfold primed_this_cycle. intros ->. reflexivity. Qed.

Lemma primed_once_filled (st : state) :
  historyFilled st = true -> primed_this_cycle st = true.
Proof.
  unfold primed_this_cycle. intros ->.
  destruct (_ =? 0)%nat; reflexivity.
Qed.

Lemma warming_up_step (raw : nat -> N) (serial : bool) (tk : tick)
    (n : nat) (st st' : state) (out : list event) :
  warming_up n st -> step raw serial tk st = Some (st', out) ->
  warming_up (n + (if is_sample tk then 1 else 0)) st'.
Proof.
  intros [Hwf (c & Hn & Hlow & Hhigh)] Hstep.
  split; [eapply step_wf; eassumption|].
  destruct tk as [reading|]; cbn [step is_sample] in *.
  - destruct (Nat.eq_dec (S (AnalogArrayPosition st)) SizeOfAnalogArray) as [Hlast|Hin].
    + rewrite (readAnalogIntoArray_wraps _ _ _ Hwf Hlast) in Hstep.
      pose proof (store_sample_position reading st Hwf) as Hpos1.
      rewrite Hlast, Nat.eqb_refl in Hpos1.
      destruct (classification_cycle_inv _ _ _ _ _
                  (store_sample_wf reading st Hwf)
                  (closing_window_ok reading st Hwf) Hstep)
        as (_ & _ & Hres & _ & _ & Hhpos & Hfilled & _ & Hpos & _).
      change (primed_this_cycle (store_sample reading st))
        with (primed_this_cycle st) in *.
      change (historyPosition (store_sample reading st))
        with (historyPosition st) in *.
      change (lightStatus (store_sample reading st)) with (lightStatus st) in *.
      exists (S c). rewrite Hpos, Hpos1.
      split; [lia|]. split.
      * intros Hc. destruct Hlow as (Hh & Hf & Hl); [lia|].
        destruct (primed_below c st Hc Hh Hf) as [Hprimed Hnext].
        rewrite Hprimed in Hres, Hfilled. rewrite Hnext in Hhpos.
        cbv zeta in Hres. rewrite classify_untouched in Hres.
        injection Hres as Hst _. repeat split; congruence.
      * intros Hc. rewrite Hfilled.
        destruct (Nat.eq_dec c 4%nat) as [->|Hne].
        -- apply primed_at_wrap. apply Hlow. unfold HISTORY_SIZE. lia.
        -- apply primed_once_filled, Hhigh. unfold HISTORY_SIZE in *. lia.
    + pose proof (wf_position _ Hwf).
      rewrite readAnalogIntoArray_inside in Hstep by (assumption || lia).
      injection Hstep as <- <-.
      pose proof (store_sample_position reading st Hwf) as Hpos1.
      destruct (Nat.eqb_spec (S (AnalogArrayPosition st)) SizeOfAnalogArray);
        [contradiction|].
      exists c. rewrite Hpos1. split; [lia|]. split; assumption.
  - injection Hstep as Hst.
    destruct (sendWiggle_frame raw serial st) as (_ & E2 & E3 & _ & _ & E6 & E7).
    rewrite Hst in *. cbn [fst] in *.
    exists c. rewrite E2, E3, E6, E7. split; [lia|]. split; assumption.
Qed.

Lemma samples_in_cons (tk : tick) (tks : list tick) :
  samples_in (tk :: tks) = ((if is_sample tk then 1 else 0) + samples_in tks)%nat.
Proof. unfold samples_in. cbn [List.filter]. destruct (is_sample tk); reflexivity. Qed.

Lemma warming_up_run (raw : nat -> N) (serial : bool) (tks : list tick) :
  forall (n : nat) (st st' : state),
    warming_up n st -> run raw serial tks st = Some st' ->
    warming_up (n + samples_in tks) st'.
Proof.
  induction tks as [|tk tks IH]; intros n st st' Hinv Hrun; cbn [run] in Hrun.
  - injection Hrun as <-. unfold samples_in. cbn. rewrite Nat.add_0_r. assumption.
  - destruct (step raw serial tk st) as [[st1 out]|] eqn:Hstep; [|discriminate].
    rewrite samples_in_cons, Nat.add_assoc.
    eapply IH; [|exact Hrun].
    eapply warming_up_step; eassumption.
Qed.

Lemma warming_up_boot (sensor : nat -> Z) (st : state) :
  setup sensor power_on = Some st -> warming_up 0 st.
Proof.
  intros Hboot.
  destruct (setup_runs sensor power_on power_on_wf)
    as (st0 & Hrun & Hwf & _ & _ & _ & Hpos & Hhpos & Hfilled & Hflag & _).
  rewrite Hrun in Hboot. injection Hboot as <-.
  split; [assumption|].
  exists 0%nat. rewrite Hpos, Hhpos, Hfilled, Hflag.
  split; [reflexivity|]. split.
  - intros _. repeat split; reflexivity.
  - unfold HISTORY_SIZE. lia.
Qed.

(** C3.  In every execution from power-on, as long as fewer than
    [HISTORY_SIZE] windows (500 samples) have been closed the history is
    not marked as filled and [lightStatus] still has the value it was
    initialised with, whatever the closed windows held.  From 500
    samples on the history is marked as filled.  From the cycle that
    completes the first wrap of the history (the fifth) on, the test
    [if (historyFilled)] succeeds and classification is enabled: the
    tick that closes a window on positive reference sums sets the flag
    to true when [percentChange > 15] and [|rateOfChange| > 5], to false
    when [percentChange < -15] and [|rateOfChange| > 5], and leaves it
    alone otherwise. *)
Theorem no_classification_before_priming (raw : nat -> N) (serial : bool)
    (sensor : nat -> Z) (tks : list tick) (st : state) :
  boot_and_run raw serial sensor tks = Some st ->
  ((samples_in tks < SizeOfAnalogArray * HISTORY_SIZE)%nat ->
     historyFilled st = false /\ lightStatus st = lightStatus power_on)
  /\ ((SizeOfAnalogArray * HISTORY_SIZE <= samples_in tks)%nat ->
      historyFilled st = true)
  /\ ((SizeOfAnalogArray * (HISTORY_SIZE - 1) <= samples_in tks)%nat ->
      primed_this_cycle st = true)
  /\ ((SizeOfAnalogArray * (HISTORY_SIZE - 1) <= samples_in tks)%nat ->
      S (AnalogArrayPosition st) = SizeOfAnalogArray ->
      0 < priorSum st -> 0 < oldestSum st ->
      forall reading : Z,
        let sum := total (closing_window reading st) in
        let pc := pct sum (priorSum st) in
        let r := rate sum (oldestSum st) in
        exists st' out,
          readAnalogIntoArray serial reading st = Some (st', out)
          /\ lightStatus st' =
               (if (15 <? pc) && (5 <? Z.abs r) then true
                else if (pc <? -15) && (5 <? Z.abs r) then false
                else lightStatus st)
          /\ historyFilled st' = true).
Proof.
  unfold boot_and_run. intros Hrun.
  destruct (setup sensor power_on) as [st0|] eqn:Hboot; [|discriminate].
  pose proof (warming_up_run raw serial tks 0 st0 st (warming_up_boot _ _ Hboot) Hrun)
    as [Hwf (c & Hn & Hlow & Hhigh)].
  pose proof (wf_position _ Hwf) as Hpos.
  cbn [Nat.add] in Hn.
  assert (Hprimed : (SizeOfAnalogArray * (HISTORY_SIZE - 1) <= samples_in tks)%nat ->
                    primed_this_cycle st = true).
  { unfold SizeOfAnalogArray, HISTORY_SIZE in *.
    intros Hge. destruct (Nat.eq_dec c 4%nat) as [->|Hne].
    - apply primed_at_wrap. apply Hlow. lia.
    - apply primed_once_filled, Hhigh. lia. }
  split; [|split; [|split; [exact Hprimed|]]].
  - unfold SizeOfAnalogArray, HISTORY_SIZE in *.
    intros Hlt. destruct Hlow as (_ & Hf & Hl); [lia|]. split; assumption.
  - unfold SizeOfAnalogArray, HISTORY_SIZE in *. intros Hge. apply Hhigh. lia.
  - intros Hge Hlast Hp Ho reading.
    destruct (closing_tick serial reading st Hwf Hlast Hp Ho) as
      (st' & out & Hstep & Hres & _ & _ & _ & Hfilled & _ & _ & _ & Hpc & Hr).
    exists st', out. split; [exact Hstep|].
    set (sum := total (closing_window reading st)) in *.
    set (pc := pct sum (priorSum st)) in *.
    set (r := rate sum (oldestSum st)) in *.
    rewrite (Hprimed Hge) in Hres, Hfilled.
    rewrite (classify_primed _ _ _ _ Hpc Hr) in Hres.
    split; [|exact Hfilled].
    destruct ((15 <? pc) && (5 <? Z.abs r)); [injection Hres as -> _; reflexivity|].
    destruct ((pc <? -15) && (5 <? Z.abs r)); [injection Hres as -> _; reflexivity|].
    destruct ((5 <? Z.abs pc) && (Z.abs r <=? 5)); injection Hres as -> _; reflexivity.
Qed.

Lemma no_classification_before_priming_witness :
  boot_and_emit (fun _ => 0%N) true (fun _ => 500) early_fall
    = Some [Println (Diagnostic 25000 50000 25000 100 20);
            Println (Diagnostic 50000 10000 (-40000) (-80) (-12))]
  /\ (exists st,
        boot_and_run (fun _ => 0%N) true (fun _ => 500) early_fall = Some st
        /\ historyFilled st = false /\ lightStatus st = true)
  /\ (exists st,
        boot_and_run (fun _ => 0%N) true (fun _ => 500) late_fall = Some st
        /\ lightStatus st = true
        /\ exists st' out,
             readAnalogIntoArray true 50 st = Some (st', out)
             /\ lightStatus st' = false /\ historyFilled st' = true).
Proof.
  split; [vm_compute; reflexivity|]. split.
  - eexists. split; [vm_compute; reflexivity|].
    match goal with
    | |- historyFilled ?st = _ /\ _ =>
        assert (Hrun : boot_and_run (fun _ => 0%N) true (fun _ => 500) early_fall
                       = Some st) by (vm_compute; reflexivity);
        destruct (no_classification_before_priming _ _ _ _ _ Hrun) as (Hearly & _)
    end.
    apply Hearly. apply Nat.ltb_lt. vm_compute. reflexivity.
  - eexists. split; [vm_compute; reflexivity|].
    split; [reflexivity|].
    match goal with
    | |- exists st' out, readAnalogIntoArray true 50 ?st = _ /\ _ =>
        assert (Hrun : boot_and_run (fun _ => 0%N) true (fun _ => 500) late_fall
                       = Some st) by (vm_compute; reflexivity);
        destruct (no_classification_before_priming _ _ _ _ _ Hrun)
          as (_ & _ & _ & Hlate);
        assert (Hge : (SizeOfAnalogArray * (HISTORY_SIZE - 1)
                       <= samples_in late_fall)%nat)
          by (apply Nat.leb_le; vm_compute; reflexivity);
        destruct (Hlate Hge eq_refl eq_refl eq_refl 50)
          as (st' & out & Hstep & Hflag & Hfilled)
    end.
    exists st', out. split; [exact Hstep|].
    split; [rewrite Hflag; reflexivity | exact Hfilled].
Defined.

(** ** Cycles that cannot change the flag *)

Lemma live_oldest (st : state) : live st -> 0 < oldestSum st.
Proof.
  intros (Hwf & _ & Hpos).
  eapply (Forall_lookup_1 (fun v => 0 < v)); [exact Hpos|].
  apply oldestSum_lookup, Hwf.
Qed.

Lemma live_cycle (serial : bool) (sum : Z) (st : state) :
  live st -> 0 < sum <= SUM_MAX ->
  exists st' out,
    classification_cycle serial sum st = Some (st', out)
    /\ cycle_outcome serial sum st st' out
    /\ live st'.
Proof.
  intros Hlive Hsum. pose proof (live_oldest st Hlive) as Ho.
  destruct Hlive as (Hwf & Hp & Hh).
  assert (Hok : sum_ok sum) by (unfold sum_ok; lia).
  destruct (classification_cycle_runs serial sum st Hwf Hok) as (st' & out & Hrun & Hout);
    [lia | lia |].
  exists st', out. split; [exact Hrun|]. split; [exact Hout|].
  split; [eapply classification_cycle_wf; eassumption|].
  destruct Hout as (_ & -> & -> & _).
  split; [lia|]. apply Forall_insert; [assumption | lia].
Qed.

(** The magnitude test fails on both sides when the step is below 16
    percent of the previous sum. *)
Lemma pct_small (sum prior : Z) :
  0 < prior -> Z.abs (sum - prior) * 100 < 16 * prior ->
  - 15 <= pct sum prior <= 15.
Proof.
  intros Hp Hstep. unfold pct.
  assert (Habs : Z.abs ((sum - prior) * 100 ÷ prior) < 16).
  { rewrite <- (Z.abs_eq prior) at 1 by lia.
    rewrite <- Z.quot_abs by lia.
    apply Z.quot_lt_upper_bound; [apply Z.abs_nonneg | lia |].
    rewrite Z.abs_mul. change (Z.abs 100) with 100. lia. }
  lia.
Qed.

Lemma classify_small (serial filled : bool) (pc r : Z) (b : bool) :
  - 15 <= pc <= 15 -> fst (classify serial filled pc r b) = b.
Proof.
  intros Hpc. unfold classify, SUDDEN_CHANGE_THRESHOLD.
  destruct filled; [|reflexivity].
  destruct (Z.ltb_spec 15 pc); [lia|].
  destruct (Z.ltb_spec pc (- (15))); [lia|].
  cbn [andb]. destruct (_ && _); reflexivity.
Qed.

Lemma gentle_cycle (serial : bool) (sum : Z) (st : state) :
  live st -> 0 < sum <= SUM_MAX ->
  Z.abs (sum - priorSum st) * 100 < 16 * priorSum st ->
  exists st' out,
    classification_cycle serial sum st = Some (st', out)
    /\ lightStatus st' = lightStatus st /\ priorSum st' = sum /\ live st'.
Proof.
  intros Hlive Hsum Hstep.
  destruct (live_cycle serial sum st Hlive Hsum) as (st' & out & Hrun & Hout & Hlive').
  exists st', out. split; [exact Hrun|].
  destruct Hout as (Hres & Hprior & _).
  split; [|split; assumption].
  destruct Hlive as (_ & Hp & _).
  pose proof (classify_small serial (primed_this_cycle st) (pct sum (priorSum st))
                (rate sum (oldestSum st)) (lightStatus st)
                (pct_small _ _ Hp Hstep)) as Hc.
  cbv zeta in Hres.
  destruct (classify serial (primed_this_cycle st) (pct sum (priorSum st))
              (rate sum (oldestSum st)) (lightStatus st)) as [status verdict].
  cbn [fst] in Hc. injection Hres as -> _. exact Hc.
Qed.

Lemma gentle_run (serial : bool) (sums : list Z) :
  forall st : state,
    live st -> gentle (priorSum st) sums ->
    exists st', run_cycles serial sums st = Some st'
                /\ lightStatus st' = lightStatus st /\ live st'.
Proof.
  induction sums as [|sum sums IH]; intros st Hlive Hg; cbn [run_cycles].
  - exists st. split; [reflexivity|]. split; [reflexivity | exact Hlive].
  - destruct Hg as (Hsum & Hstep & Hrest).
    destruct (gentle_cycle serial sum st Hlive Hsum Hstep)
      as (st1 & out & Hrun & Hflag & Hprior & Hlive1).
    rewrite Hrun. rewrite <- Hprior in Hrest.
    destruct (IH st1 Hlive1 Hrest) as (st' & Hrun' & Hflag' & Hlive').
    exists st'. split; [exact Hrun'|]. split; [congruence | assumption].
Qed.

(** ** Gradual drift *)

Lemma rising_ramp_gentle (d : Z) (n : nat) :
  forall from : Z,
    0 < d -> 100 * d <= from -> from + Z.of_nat n * d <= SUM_MAX ->
    gentle from (ramp from d n).
Proof.
  induction n as [|n IH]; intros from Hd Hfrom Hmax; cbn [ramp gentle].
  - exact I.
  - split; [lia|]. split; [lia|]. apply IH; lia.
Qed.

Lemma falling_ramp_gentle (d : Z) (n : nat) :
  forall from : Z,
    0 < d -> from <= SUM_MAX -> 25 * d < 4 * (from - Z.of_nat n * d + d) ->
    gentle from (ramp from (- d) n).
Proof.
  induction n as [|n IH]; intros from Hd Hmax Hfrom; cbn [ramp gentle].
  - exact I.
  - split; [lia|]. split; [lia|]. apply IH; lia.
Qed.

(** C5, as amended.  From a positive baseline [100 * d] the window sum
    drifts by [d], one percent of the baseline, per cycle.  While it
    rises the flag never changes, however long the drift lasts; while it
    falls the flag does not change during the first 94 cycles.  On all
    these cycles the step is at most 15 percent of the previous sum, so
    the magnitude test fails. *)
Theorem linear_drift_keeps_flag (serial : bool) (st : state) (d : Z) (n : nat) :
  wf st -> 0 < d -> priorSum st = 100 * d ->
  Forall (fun v => 0 < v) (sumHistory st) ->
  ((100 + Z.of_nat n) * d <= SUM_MAX ->
     exists st', run_cycles serial (ramp (100 * d) d n) st = Some st'
                 /\ lightStatus st' = lightStatus st)
  /\ ((n <= 94)%nat -> 100 * d <= SUM_MAX ->
      exists st', run_cycles serial (ramp (100 * d) (- d) n) st = Some st'
                  /\ lightStatus st' = lightStatus st).
Proof.
  intros Hwf Hd Hprior Hhist.
  assert (Hlive : live st) by (split; [assumption | split; [lia | assumption]]).
  split.
  - intros Hmax.
    destruct (gentle_run serial (ramp (100 * d) d n) st Hlive) as (st' & Hrun & Hflag & _).
    + rewrite Hprior. apply rising_ramp_gentle; lia.
    + eauto.
  - intros Hn Hmax.
    destruct (gentle_run serial (ramp (100 * d) (- d) n) st Hlive)
      as (st' & Hrun & Hflag & _).
    + rewrite Hprior. apply falling_ramp_gentle; nia.
    + eauto.
Qed.

Lemma linear_drift_keeps_flag_witness :
  (exists st', run_cycles true (ramp 45200 452 20) switch_on_example = Some st'
               /\ lightStatus st' = lightStatus switch_on_example)
  /\ (exists st', run_cycles true (ramp 45200 (-452) 94) switch_on_example = Some st'
                  /\ lightStatus st' = lightStatus switch_on_example).
Proof.
  destruct (linear_drift_keeps_flag true switch_on_example 452 20
              switch_on_example_wf) as [Hup _].
  - lia.
  - reflexivity.
  - apply Forall_replicate. lia.
  - destruct (linear_drift_keeps_flag true switch_on_example 452 94
                switch_on_example_wf) as [_ Hdown].
    + lia.
    + reflexivity.
    + apply Forall_replicate. lia.
    + split.
      * apply Hup. vm_compute. discriminate.
      * apply Hdown; [lia | vm_compute; discriminate].
Defined.

(** C5 as stated fails.  After a primed, steady baseline of 10000 the
    window sum falls linearly by one percent of the baseline per cycle.
    The flag is still true after 94 such cycles, but the 95th takes the
    sum from 600 to 500, which is a change of -16 percent at a rate of
    -10 percent: both tests succeed and the flag is switched off. *)
Lemma dusk_ramp_switches_off :
  (exists st,
     boot_and_run (fun _ => 0%N) true (fun _ => 100) steady_baseline = Some st
     /\ historyFilled st = true /\ lightStatus st = true
     /\ priorSum st = 10000 /\ sumHistory st = replicate HISTORY_SIZE 10000)
  /\ option_map logged_sums
       (boot_and_emit (fun _ => 0%N) true (fun _ => 100) (steady_baseline ++ dusk 95))
     = Some (replicate 10 10000 ++ ramp 10000 (-100) 95)
  /\ (exists st,
        boot_and_run (fun _ => 0%N) true (fun _ => 100) (steady_baseline ++ dusk 94)
          = Some st
        /\ lightStatus st = true)
  /\ (exists st,
        boot_and_run (fun _ => 0%N) true (fun _ => 100) (steady_baseline ++ dusk 95)
          = Some st
        /\ priorSum st = 500 /\ lightStatus st = false).
Proof.
  split; [|split; [|split]].
  - eexists. split; [vm_compute; reflexivity|]. vm_compute. repeat split; reflexivity.
  - vm_compute. reflexivity.
  - eexists. split; [vm_compute; reflexivity|]. reflexivity.
  - eexists. split; [vm_compute; reflexivity|]. split; reflexivity.
Qed.

(** ** A light switch *)

Lemma classify_switch_on (serial : bool) (r : Z) (b : bool) :
  5 < r -> classify serial true 30 r b = (true, log serial LightsOn).
Proof.
  intros Hr. unfold classify, abs, SUDDEN_CHANGE_THRESHOLD, CHANGE_RATE_THRESHOLD.
  destruct (Z.ltb_spec 0 r); [|lia].
  destruct (Z.ltb_spec 5 r); [|lia].
  reflexivity.
Qed.

(** C6.  In a primed state whose previous sum is the positive baseline
    [B] and whose evicted history sum is at most [B], a window sum of
    [1.3 * B] sets the flag to true in that cycle (the change is 30
    percent, the rate at least 6 percent), and the flag is still true
    after any number of further cycles at that level. *)
Theorem switch_jump_latches (serial : bool) (st : state) (B sum : Z) :
  wf st -> primed_this_cycle st = true ->
  0 < B -> priorSum st = B -> oldestSum st <= B ->
  Forall (fun v => 0 < v) (sumHistory st) ->
  10 * sum = 13 * B -> sum <= SUM_MAX ->
  (exists st1 out,
     classification_cycle serial sum st = Some (st1, out)
     /\ lightStatus st1 = true
     /\ pct sum B = 30 /\ 6 <= rate sum (oldestSum st)
     /\ out = log serial (Diagnostic B sum (sum - B) 30 (rate sum (oldestSum st)))
               ++ log serial LightsOn)
  /\ (forall n : nat,
        exists st', run_cycles serial (replicate (S n) sum) st = Some st'
                    /\ lightStatus st' = true).
Proof.
  intros Hwf Hprimed HB Hprior Hold Hhist Hjump Hmax.
  assert (Hlive : live st) by (split; [assumption | split; [lia | assumption]]).
  pose proof (live_oldest st Hlive) as Hopos.
  assert (Hsum : 0 < sum <= SUM_MAX) by lia.
  destruct (live_cycle serial sum st Hlive Hsum) as (st1 & out & Hrun & Hout & Hlive1).
  destruct Hout as (Hres & Hprior1 & _).
  rewrite Hprimed, Hprior in Hres. cbv zeta in Hres.
  assert (Hpc : pct sum B = 30).
  { unfold pct. replace ((sum - B) * 100) with (30 * B) by lia.
    apply Z.quot_mul. lia. }
  assert (Hr : 6 <= rate sum (oldestSum st)).
  { unfold rate. change (Z.of_nat HISTORY_SIZE) with 5.
    apply Z.quot_le_lower_bound; lia. }
  rewrite Hpc, classify_switch_on in Hres by lia. injection Hres as Hflag Hlog.
  split.
  - exists st1, out. split; [exact Hrun|]. repeat split; assumption.
  - intros n. change (replicate (S n) sum) with (sum :: replicate n sum).
    cbn [run_cycles]. rewrite Hrun.
    destruct (gentle_run serial (replicate n sum) st1 Hlive1) as (st' & Hrun' & Hflag' & _).
    + rewrite Hprior1. clear - Hsum. induction n as [|n IH]; cbn [replicate gentle].
      * exact I.
      * split; [assumption|]. split; [|exact IH].
        replace (sum - sum) with 0 by lia. cbn. lia.
    + exists st'. split; [exact Hrun'|]. congruence.
Qed.

Lemma baseline_example_wf : wf baseline_example.
Proof.
  constructor; unfold baseline_example; fields.
  - apply length_replicate.
  - unfold SizeOfAnalogArray. lia.
  - apply Forall_replicate. unfold sample_ok. lia.
  - apply length_replicate.
  - unfold HISTORY_SIZE. lia.
  - unfold sum_ok, SUM_MAX. lia.
  - apply Forall_replicate. unfold sum_ok, SUM_MAX. lia.
Qed.

Lemma switch_jump_latches_witness :
  (exists st1 out,
     classification_cycle true 58760 baseline_example = Some (st1, out)
     /\ lightStatus st1 = true
     /\ out = [Println (Diagnostic 45200 58760 13560 30 6); Println LightsOn])
  /\ (exists st', run_cycles true (replicate 8 58760) baseline_example = Some st'
                  /\ lightStatus st' = true).
Proof.
  destruct (switch_jump_latches true baseline_example 45200 58760 baseline_example_wf)
    as [Hjump Hstay].
  - reflexivity.
  - lia.
  - reflexivity.
  - vm_compute. discriminate.
  - apply Forall_replicate. lia.
  - reflexivity.
  - vm_compute. discriminate.
  - split; [|exact (Hstay 7%nat)].
    destruct Hjump as (st1 & out & Hrun & Hflag & _ & _ & Hout).
    exists st1, out. split; [exact Hrun|]. split; [exact Hflag|]. exact Hout.
Defined.

(** ** Ticks that only print, ticks that only count *)

Lemma classify_prints_only (serial filled : bool) (pc r : Z) (b : bool) :
  Forall (fun e => exists m, e = Println m) (snd (classify serial filled pc r b))
  /\ (serial = false -> snd (classify serial filled pc r b) = []).
Proof.
  unfold classify. destruct filled; [|split; [constructor | reflexivity]].
  repeat match goal with
         | |- context [if ?c then _ else _] => destruct c
         end; destruct serial; cbn;
    (split; [repeat constructor; eauto | intros; (reflexivity || discriminate)]).
Qed.

(** Whatever [readAnalogIntoArray] emits is a printed line, and it
    never writes the scheduler's variables. *)
Lemma readAnalogIntoArray_prints_only (serial : bool) (reading : Z)
    (st st' : state) (out : list event) :
  readAnalogIntoArray serial reading st = Some (st', out) ->
  Forall (fun e => exists m, e = Println m) out
  /\ (serial = false -> out = [])
  /\ wiggleSec st' = wiggleSec st
  /\ nextWiggleTime st' = nextWiggleTime st
  /\ randomCalls st' = randomCalls st.
Proof.
  unfold readAnalogIntoArray, classification_cycle.
  destruct (AnalogArrayPosition st <? length (AnalogArray st))%nat; [|discriminate].
  destruct (AnalogArrayPosition (store_sample reading st) =? 0)%nat.
  - destruct (window_sum (AnalogArray (store_sample reading st))) as [sum|];
      [|discriminate].
    destruct (percentChange_of sum (priorSum (store_sample reading st))) as [pc|];
      [|discriminate].
    destruct (sumHistory (store_sample reading st)
                !! historyPosition (store_sample reading st)) as [oldest|];
      [|discriminate].
    destruct (rateOfChange_of sum oldest) as [r|]; [|discriminate].
    match goal with
    | |- context [classify serial ?f pc r ?b] =>
        pose proof (classify_prints_only serial f pc r b) as [Hp Hs];
        destruct (classify serial f pc r b) as [status verdict]
    end.
    cbn [snd] in Hp, Hs. intros Heq. injection Heq as <- <-.
    split; [|split; [|repeat split]].
    + apply Forall_app. split; [|exact Hp].
      destruct serial; cbn; repeat constructor; eauto.
    + intros ->. rewrite Hs by reflexivity. reflexivity.
  - intros Heq. injection Heq as <- <-.
    split; [constructor|]. repeat split.
Qed.

Lemma sendWiggle_counts (raw : nat -> N) (serial : bool) (st : state) :
  wrap_int (wiggleSec st + 1) < nextWiggleTime st ->
  sendWiggle raw serial st
    = ({| AnalogArray := AnalogArray st;
          AnalogArrayPosition := AnalogArrayPosition st;
          lightStatus := lightStatus st;
          priorSum := priorSum st;
          sumHistory := sumHistory st;
          historyPosition := historyPosition st;
          historyFilled := historyFilled st;
          wiggleSec := wrap_int (wiggleSec st + 1);
          nextWiggleTime := nextWiggleTime st;
          randomCalls := randomCalls st |}, []).
Proof.
  intros Hwait. unfold sendWiggle.
  destruct (Z.leb_spec (nextWiggleTime st) (wrap_int (wiggleSec st + 1))); [lia|].
  reflexivity.
Qed.

Lemma waiting_ticks (raw : nat -> N) (serial : bool) (t : Z) (k : nat) :
  forall st : state,
    nextWiggleTime st = t -> 0 <= wiggleSec st ->
    wiggleSec st + Z.of_nat k < t <= 32767 ->
    exists st' tr,
      run raw serial (replicate k Timer3) st = Some st'
      /\ trace raw serial (replicate k Timer3) st = Some tr
      /\ concat (map emitted tr) = []
      /\ wiggleSec st' = wiggleSec st + Z.of_nat k
      /\ nextWiggleTime st' = t
      /\ randomCalls st' = randomCalls st
      /\ lightStatus st' = lightStatus st.
Proof.
  induction k as [|k IH]; intros st Hnext Hsec Hk.
  - exists st, []. cbn. repeat split; try reflexivity; lia.
  - assert (Hwait : wrap_int (wiggleSec st + 1) < nextWiggleTime st).
    { rewrite wrap_int_id by lia. lia. }
    pose proof (sendWiggle_counts raw serial st Hwait) as Hs.
    rewrite wrap_int_id in Hs by lia.
    destruct (IH (fst (sendWiggle raw serial st))) as (st' & tr & Hrun & Htr & Hout & H1 & H2 & H3 & H4).
    { rewrite Hs. cbn. exact Hnext. }
    { rewrite Hs. cbn. lia. }
    { rewrite Hs. cbn. lia. }
    rewrite Hs in Hrun, Htr, H1, H3, H4. cbn [fst wiggleSec randomCalls lightStatus] in *.
    eexists st', _. cbn [replicate run trace step]. rewrite Hs, Hrun, Htr.
    split; [reflexivity|]. split; [reflexivity|].
    cbn [map concat emitted app]. split; [exact Hout|].
    repeat split; try assumption. lia.
Qed.

(** ** From power-on to the first switch-off *)

Lemma trace_cons (raw : nat -> N) (serial : bool) (tk : tick) (tks : list tick)
    (st : state) (tr : list transition) :
  trace raw serial (tk :: tks) st = Some tr ->
  exists st' out tr',
    step raw serial tk st = Some (st', out)
    /\ trace raw serial tks st' = Some tr'
    /\ tr = mkTransition tk st st' out :: tr'.
Proof.
  cbn [trace]. intros Htr.
  destruct (step raw serial tk st) as [[st' out]|]; [|discriminate].
  destruct (trace raw serial tks st') as [tr'|] eqn:Htr'; [|discriminate].
  injection Htr as <-. exists st', out, tr'.
  split; [reflexivity|]. split; [exact Htr' | reflexivity].
Qed.

Lemma trigger_wiggles (raw : nat -> N) (serial : bool) (tk : tick)
    (st st' : state) (out : list event) :
  step raw serial tk st = Some (st', out) -> lightStatus st = true ->
  trigger (mkTransition tk st st' out) -> wiggled (mkTransition tk st st' out).
Proof.
  intros Hstep Hlit [Hfired Hdue]. cbn [fired before] in *. subst tk.
  cbn [step] in Hstep. injection Hstep as Hst.
  destruct (sendWiggle_lit raw serial st Hdue Hlit) as (_ & Hmoves & _).
  rewrite Hst in Hmoves. cbn [snd] in Hmoves.
  exists (direction raw (S (randomCalls st))), (direction raw (S (S (randomCalls st)))).
  split; [apply direction_unit|]. split; [apply direction_unit|]. exact Hmoves.
Qed.

Lemma lit_trace_wiggles (raw : nat -> N) (serial : bool) (tks : list tick) :
  forall (st : state) (tr : list transition),
    lightStatus st = true ->
    trace raw serial tks st = Some tr ->
    Forall (fun t => ~ switches_off t) tr ->
    Forall (fun t => trigger t -> wiggled t) tr.
Proof.
  induction tks as [|tk tks IH]; intros st tr Hlit Htr Hkeep.
  - cbn [trace] in Htr. injection Htr as <-. constructor.
  - destruct (trace_cons _ _ _ _ _ _ Htr) as (st' & out & tr' & Hstep & Htr' & ->).
    apply Forall_cons in Hkeep. destruct Hkeep as [Hhere Hrest].
    constructor.
    + apply (trigger_wiggles raw serial); assumption.
    + apply (IH st'); try assumption.
      unfold switches_off in Hhere. cbn [before after] in Hhere.
      destruct (lightStatus st'); [reflexivity | tauto].
Qed.

(** *** A room that stays as it is *)

Lemma total_member_le (l : list Z) (i : nat) (v : Z) :
  Forall sample_ok l -> l !! i = Some v -> v <= total l.
Proof.
  intros Hok. revert i. induction Hok as [|x l Hx Hl IH]; intros [|i] Hi;
    cbn in Hi; try discriminate.
  - injection Hi as ->. pose proof (total_range l Hl).
    change (total (v :: l)) with (v + total l). lia.
  - specialize (IH i Hi). unfold sample_ok in Hx.
    change (total (x :: l)) with (x + total l). lia.
Qed.

Lemma all_slots_replicate (l : list Z) (n : nat) (c : Z) :
  length l = n -> (forall i, (i < n)%nat -> l !! i = Some c) -> l = replicate n c.
Proof.
  revert n. induction l as [|x l IH]; intros [|n] Hlen Hall; try discriminate.
  - reflexivity.
  - cbn [replicate]. f_equal.
    + specialize (Hall 0%nat ltac:(lia)). cbn in Hall. congruence.
    + apply IH; [cbn in Hlen; lia|].
      intros i Hi. apply (Hall (S i)). lia.
Qed.

Lemma steady_boot (c : Z) :
  0 < c <= 65535 ->
  exists st, setup (fun _ => c) power_on = Some st /\ steady c st.
Proof.
  intros Hc.
  destruct (setup_runs (fun _ => c) power_on power_on_wf)
    as (st & Hrun & Hwf & Harr & Hprior & Hhist & Hpos & Hhpos & Hfilled & Hflag & _).
  exists st. split; [exact Hrun|].
  assert (Hfirst : AnalogArray st !! 0%nat = Some c).
  { rewrite Harr.
    rewrite (prefill_written (fun _ => c) SizeOfAnalogArray 0 0 _ 0).
    - rewrite wrap_uint_id by lia. reflexivity.
    - unfold SizeOfAnalogArray. lia.
    - apply length_replicate.
    - unfold SizeOfAnalogArray. lia. }
  pose proof (total_member_le _ _ _ (wf_samples _ Hwf) Hfirst) as Hle.
  split; [|split; [|split]].
  - split; [assumption|]. split; [lia|].
    rewrite Hhist. apply Forall_replicate. lia.
  - rewrite Hflag. reflexivity.
  - rewrite Hpos. cbn. lia.
  - left. rewrite Hhpos, Hfilled. split; reflexivity.
Qed.

Lemma steady_sample (serial : bool) (c : Z) (st : state) :
  0 < c <= 65535 -> steady c st ->
  exists st' out,
    readAnalogIntoArray serial c st = Some (st', out) /\ steady c st'.
Proof.
  intros Hc (Hlive & Hlit & Hslots & Hphase).
  pose proof Hlive as (Hwf & Hprior & Hhist).
  pose proof (wf_position _ Hwf) as Hpos.
  pose proof (store_sample_position c st Hwf) as Hpos1.
  assert (Hslots1 : forall i, (i <= AnalogArrayPosition st)%nat ->
                      AnalogArray (store_sample c st) !! i = Some c).
  { intros i Hi. fields. rewrite wrap_uint_id by lia.
    destruct (Nat.eq_dec i (AnalogArrayPosition st)) as [->|Hne].
    - apply list_lookup_insert_eq. rewrite (wf_length _ Hwf). assumption.
    - rewrite list_lookup_insert_ne by lia. apply Hslots. lia. }
  assert (Hlive1 : live (store_sample c st)).
  { split; [apply store_sample_wf, Hwf|]. split; assumption. }
  destruct (Nat.eq_dec (S (AnalogArrayPosition st)) SizeOfAnalogArray) as [Hlast|Hin].
  - rewrite (readAnalogIntoArray_wraps _ _ _ Hwf Hlast).
    rewrite Hlast, Nat.eqb_refl in Hpos1.
    assert (Hwin : closing_window c st = replicate SizeOfAnalogArray c).
    { apply all_slots_replicate.
      - apply (wf_length _ (store_sample_wf c st Hwf)).
      - intros i Hi. apply Hslots1. lia. }
    rewrite Hwin, total_replicate.
    assert (Hsum : 0 < Z.of_nat SizeOfAnalogArray * c <= SUM_MAX).
    { unfold SizeOfAnalogArray, SUM_MAX. lia. }
    destruct Hphase as [[Hh Hf]|Hfull].
    + destruct (live_cycle serial _ _ Hlive1 Hsum)
        as (st' & out & Hrun & Hout & Hlive').
      exists st', out. split; [exact Hrun|].
      destruct Hout as (Hres & Hp' & _ & _ & _ & _ & Hpos' & _).
      assert (Hunprimed : primed_this_cycle (store_sample c st) = false).
      { apply (primed_below 0 (store_sample c st)); try assumption.
        unfold HISTORY_SIZE. lia. }
      rewrite Hunprimed in Hres. cbv zeta in Hres.
      rewrite classify_untouched in Hres. injection Hres as Hflag _.
      split; [assumption|]. split; [fields; congruence|].
      split; [rewrite Hpos', Hpos1; intros i Hi; lia|].
      right. exact Hp'.
    + destruct (gentle_cycle serial _ _ Hlive1 Hsum)
        as (st' & out & Hrun & Hflag & Hp' & Hlive').
      { fields. rewrite Hfull. rewrite Z.sub_diag. cbn. lia. }
      exists st', out. split; [exact Hrun|].
      split; [assumption|]. split; [fields; congruence|].
      assert (Hsok : sum_ok (Z.of_nat SizeOfAnalogArray * c))
        by (unfold sum_ok; lia).
      destruct (classification_cycle_inv _ _ _ _ _ (store_sample_wf c st Hwf)
                  Hsok Hrun)
        as (_ & _ & _ & _ & _ & _ & _ & _ & Hpos' & _).
      split; [rewrite Hpos', Hpos1; intros i Hi; lia|].
      right. exact Hp'.
  - rewrite readAnalogIntoArray_inside by (assumption || lia).
    exists (store_sample c st), []. split; [reflexivity|].
    destruct (Nat.eqb_spec (S (AnalogArrayPosition st)) SizeOfAnalogArray);
      [contradiction|].
    split; [assumption|]. split; [assumption|].
    split; [rewrite Hpos1; intros i Hi; apply Hslots1; lia|].
    exact Hphase.
Qed.

Lemma steady_wiggle (raw : nat -> N) (serial : bool) (c : Z) (st : state) :
  steady c st -> steady c (fst (sendWiggle raw serial st)).
Proof.
  intros ((Hwf & Hprior & Hhist) & Hlit & Hslots & Hphase).
  destruct (sendWiggle_frame raw serial st) as (E1 & E2 & E3 & E4 & E5 & E6 & E7).
  split; [|rewrite E1, E2, E3, E4, E6, E7; repeat split; assumption].
  split; [apply sendWiggle_wf, Hwf|]. rewrite E4, E5. split; assumption.
Qed.

Lemma steady_trace (raw : nat -> N) (serial : bool) (c : Z) (tks : list tick) :
  0 < c <= 65535 ->
  Forall (fun tk => tk = Timer3 \/ tk = Timer1 c) tks ->
  forall st : state,
    steady c st ->
    exists tr, trace raw serial tks st = Some tr
               /\ Forall (fun t => ~ switches_off t) tr.
Proof.
  intros Hc Htks. induction Htks as [|tk tks Htk _ IH]; intros st Hst.
  - exists []. split; [reflexivity | constructor].
  - assert (Hstep : exists st' out,
              step raw serial tk st = Some (st', out) /\ steady c st').
    { destruct Htk as [-> | ->]; cbn [step].
      - destruct (sendWiggle raw serial st) as [st' out] eqn:Hs.
        exists st', out. split; [reflexivity|].
        change st' with (fst (st', out)). rewrite <- Hs.
        apply steady_wiggle, Hst.
      - apply steady_sample; assumption. }
    destruct Hstep as (st' & out & Hstep & Hst').
    destruct (IH st' Hst') as (tr & Htr & Hkeep).
    exists (mkTransition tk st st' out :: tr). cbn [trace].
    rewrite Hstep, Htr. split; [reflexivity|].
    constructor; [|assumption].
    unfold switches_off. cbn [before after].
    destruct Hst' as (_ & Hlit' & _). rewrite Hlit'. intros [_ Hfalse]. discriminate.
Qed.

Lemma steady_run (raw : nat -> N) (serial : bool) (c : Z) (tks : list tick) :
  0 < c <= 65535 ->
  Forall (fun tk => tk = Timer3 \/ tk = Timer1 c) tks ->
  forall st : state,
    steady c st ->
    exists st', run raw serial tks st = Some st' /\ steady c st'.
Proof.
  intros Hc Htks. induction Htks as [|tk tks Htk _ IH]; intros st Hst.
  - exists st. split; [reflexivity | assumption].
  - assert (Hstep : exists st' out,
              step raw serial tk st = Some (st', out) /\ steady c st').
    { destruct Htk as [-> | ->]; cbn [step].
      - destruct (sendWiggle raw serial st) as [st' out] eqn:Hs.
        exists st', out. split; [reflexivity|].
        change st' with (fst (st', out)). rewrite <- Hs.
        apply steady_wiggle, Hst.
      - apply steady_sample; assumption. }
    destruct Hstep as (st' & out & Hstep & Hst').
    destruct (IH st' Hst') as (st2 & Hrun & Hst2).
    exists st2. cbn [run]. rewrite Hstep. split; assumption.
Qed.

Lemma armed_step (raw : nat -> N) (serial : bool) (tk : tick) (st st' : state)
    (out : list event) :
  armed st -> step raw serial tk st = Some (st', out) -> armed st'.
Proof.
  unfold armed, wigglePeriod, wigglePeriodVariation.
  intros Harmed Hstep. destruct tk as [reading|]; cbn [step] in Hstep.
  - destruct (readAnalogIntoArray_prints_only _ _ _ _ _ Hstep)
      as (_ & _ & -> & -> & _). exact Harmed.
  - injection Hstep as Hst.
    destruct (Z.le_gt_cases (nextWiggleTime st) (wrap_int (wiggleSec st + 1)))
      as [Hdue|Hwait].
    + pose proof (sendWiggle_fires raw serial st Hdue) as Hf.
      rewrite Hst in Hf. destruct Hf as (-> & -> & _).
      pose proof (chosen_interval_range raw (randomCalls st)) as Hr.
      unfold wigglePeriod, wigglePeriodVariation in Hr. lia.
    + rewrite sendWiggle_counts in Hst by lia. injection Hst as <- _.
      cbn [wiggleSec nextWiggleTime]. rewrite wrap_int_id in * by lia. lia.
Qed.

Lemma armed_run (raw : nat -> N) (serial : bool) (tks : list tick) :
  forall st st' : state,
    armed st -> run raw serial tks st = Some st' -> armed st'.
Proof.
  induction tks as [|tk tks IH]; intros st st' Harmed Hrun; cbn [run] in Hrun.
  - injection Hrun as <-. assumption.
  - destruct (step raw serial tk st) as [[st1 out]|] eqn:Hstep; [|discriminate].
    apply (IH st1); [|assumption]. eapply armed_step; eassumption.
Qed.

Lemma armed_boot (raw : nat -> N) (serial : bool) (sensor : nat -> Z)
    (tks : list tick) (st : state) :
  boot_and_run raw serial sensor tks = Some st -> armed st.
Proof.
  unfold boot_and_run.
  destruct (setup_runs sensor power_on power_on_wf)
    as (st0 & -> & _ & _ & _ & _ & _ & _ & _ & _ & Hsec & Hnext).
  apply armed_run. unfold armed. rewrite Hsec, Hnext.
  unfold power_on. cbn [wiggleSec nextWiggleTime].
  unfold wigglePeriod, wigglePeriodVariation. lia.
Qed.

Lemma trace_app (raw : nat -> N) (serial : bool) (tks1 tks2 : list tick) :
  forall (st st1 : state) (tr1 tr2 : list transition),
    trace raw serial tks1 st = Some tr1 ->
    run raw serial tks1 st = Some st1 ->
    trace raw serial tks2 st1 = Some tr2 ->
    trace raw serial (tks1 ++ tks2) st = Some (tr1 ++ tr2).
Proof.
  induction tks1 as [|tk tks1 IH]; intros st st1 tr1 tr2 Htr1 Hrun Htr2.
  - cbn in Htr1, Hrun. injection Htr1 as <-. injection Hrun as <-. exact Htr2.
  - destruct (trace_cons _ _ _ _ _ _ Htr1) as (st' & out & tr' & Hstep & Htr' & ->).
    cbn [run] in Hrun. rewrite Hstep in Hrun.
    cbn [app trace]. rewrite Hstep.
    rewrite (IH st' st1 tr' tr2 Htr' Hrun Htr2). reflexivity.
Qed.

(** From an armed state with the flag true, Timer3 alone brings the
    next wiggle within thirteen ticks. *)
Lemma next_wiggle (raw : nat -> N) (serial : bool) (st : state) :
  armed st -> lightStatus st = true ->
  exists (k : nat) (tr : list transition) (dx dy : Z),
    (k < 13)%nat
    /\ trace raw serial (replicate k Timer3 ++ [Timer3]) st = Some tr
    /\ (dx = 1 \/ dx = -1) /\ (dy = 1 \/ dy = -1)
    /\ moves (concat (map emitted tr))
       = [MouseMove dx dy 0; MouseMove (- dx) (- dy) 0].
Proof.
  unfold armed, wigglePeriod, wigglePeriodVariation. intros [Hsec Hnext] Hlit.
  set (k := Z.to_nat (nextWiggleTime st - wiggleSec st - 1)).
  destruct (waiting_ticks raw serial (nextWiggleTime st) k st eq_refl)
    as (st1 & tr1 & Hrun & Htr & Hquiet & H1 & H2 & _ & Hlit1);
    [lia | unfold k; lia |].
  assert (Hdue : nextWiggleTime st1 <= wrap_int (wiggleSec st1 + 1)).
  { rewrite H1, H2, wrap_int_id by (unfold k; lia). unfold k. lia. }
  rewrite Hlit in Hlit1.
  destruct (sendWiggle_lit raw serial st1 Hdue Hlit1) as (_ & Hmoves & _).
  destruct (sendWiggle raw serial st1) as [st2 out] eqn:Hs. cbn [snd] in Hmoves.
  exists k, (tr1 ++ [mkTransition Timer3 st1 st2 out]),
    (direction raw (S (randomCalls st1))), (direction raw (S (S (randomCalls st1)))).
  split; [unfold k; lia|]. split.
  - apply (trace_app raw serial _ _ st st1); try assumption.
    cbn [trace step]. rewrite Hs. reflexivity.
  - split; [apply direction_unit|]. split; [apply direction_unit|].
    rewrite map_app, concat_app, Hquiet. cbn [app map concat emitted].
    rewrite app_nil_r. exact Hmoves.
Qed.

(** C10.  [lightStatus] is true at power-on.  In every execution from
    power-on in which no interrupt has switched the flag off yet, every
    tick of Timer3 that finds the interval elapsed wiggles the pointer.
    Triggers do come: from every state an execution from power-on
    reaches with the flag still true, at most thirteen further ticks of
    Timer3 bring a trigger that moves the pointer by [(dx, dy)] and
    back.  In particular, when the sensor returns the same positive
    value [c] from power-on, however low, every execution is defined,
    the flag is never switched off, and after an execution of any length
    the next wiggle follows within thirteen seconds. *)
Theorem wiggles_from_power_on (raw : nat -> N) (serial : bool) :
  lightStatus power_on = true
  /\ (forall (sensor : nat -> Z) (tks : list tick) (st : state)
             (tr : list transition),
        setup sensor power_on = Some st ->
        trace raw serial tks st = Some tr ->
        Forall (fun t => ~ switches_off t) tr ->
        Forall (fun t => trigger t -> wiggled t) tr)
  /\ (forall (c : Z) (tks : list tick),
        0 < c <= 65535 ->
        Forall (fun tk => tk = Timer3 \/ tk = Timer1 c) tks ->
        exists st tr,
          setup (fun _ => c) power_on = Some st
          /\ trace raw serial tks st = Some tr
          /\ Forall (fun t => ~ switches_off t) tr
          /\ Forall (fun t => trigger t -> wiggled t) tr)
  /\ (forall (sensor : nat -> Z) (tks : list tick) (st : state),
        boot_and_run raw serial sensor tks = Some st ->
        lightStatus st = true ->
        exists (k : nat) (tr : list transition) (dx dy : Z),
          (k < 13)%nat
          /\ trace raw serial (replicate k Timer3 ++ [Timer3]) st = Some tr
          /\ (dx = 1 \/ dx = -1) /\ (dy = 1 \/ dy = -1)
          /\ moves (concat (map emitted tr))
             = [MouseMove dx dy 0; MouseMove (- dx) (- dy) 0])
  /\ (forall (c : Z) (tks : list tick),
        0 < c <= 65535 ->
        Forall (fun tk => tk = Timer3 \/ tk = Timer1 c) tks ->
        exists (st : state) (k : nat) (tr : list transition) (dx dy : Z),
          boot_and_run raw serial (fun _ => c) tks = Some st
          /\ lightStatus st = true
          /\ (k < 13)%nat
          /\ trace raw serial (replicate k Timer3 ++ [Timer3]) st = Some tr
          /\ (dx = 1 \/ dx = -1) /\ (dy = 1 \/ dy = -1)
          /\ moves (concat (map emitted tr))
             = [MouseMove dx dy 0; MouseMove (- dx) (- dy) 0]).
Proof.
  split; [reflexivity|]. split; [|split; [|split]].
  - intros sensor tks st tr Hboot Htr Hkeep.
    apply (lit_trace_wiggles raw serial tks st tr); try assumption.
    destruct (setup_runs sensor power_on power_on_wf)
      as (st0 & Hrun & _ & _ & _ & _ & _ & _ & _ & Hflag & _).
    rewrite Hrun in Hboot. injection Hboot as <-. rewrite Hflag. reflexivity.
  - intros c tks Hc Htks.
    destruct (steady_boot c Hc) as (st & Hboot & Hst).
    destruct (steady_trace raw serial c tks Hc Htks st Hst) as (tr & Htr & Hkeep).
    exists st, tr. repeat split; try assumption.
    apply (lit_trace_wiggles raw serial tks st tr); try assumption.
    apply Hst.
  - intros sensor tks st Hrun Hlit.
    apply next_wiggle; [|exact Hlit].
    eapply armed_boot; eassumption.
  - intros c tks Hc Htks.
    destruct (steady_boot c Hc) as (st0 & Hboot & Hst0).
    destruct (steady_run raw serial c tks Hc Htks st0 Hst0) as (st & Hrun & Hst).
    assert (Hboot_run : boot_and_run raw serial (fun _ => c) tks = Some st).
    { unfold boot_and_run. rewrite Hboot. exact Hrun. }
    assert (Hlit : lightStatus st = true) by apply Hst.
    destruct (next_wiggle raw serial st (armed_boot _ _ _ _ _ Hboot_run) Hlit)
      as (k & tr & dx & dy & Hk & Htr & Hdx & Hdy & Hmoves).
    exists st, k, tr, dx, dy. repeat split; assumption.
Qed.

Lemma wiggles_from_power_on_witness :
  lightStatus power_on = true
  /\ exists (st : state) (k : nat) (tr : list transition) (dx dy : Z),
       boot_and_run (fun k => N.of_nat k) true (fun _ => 3)
         (replicate 250 (Timer1 3) ++ replicate 4 Timer3) = Some st
       /\ lightStatus st = true
       /\ (k < 13)%nat
       /\ trace (fun k => N.of_nat k) true (replicate k Timer3 ++ [Timer3]) st
          = Some tr
       /\ (dx = 1 \/ dx = -1) /\ (dy = 1 \/ dy = -1)
       /\ moves (concat (map emitted tr))
          = [MouseMove dx dy 0; MouseMove (- dx) (- dy) 0].
Proof.
  destruct (wiggles_from_power_on (fun k => N.of_nat k) true)
    as (Hinit & _ & _ & _ & Hdark).
  split; [exact Hinit|].
  apply (Hdark 3 (replicate 250 (Timer1 3) ++ replicate 4 Timer3)).
  - lia.
  - apply Forall_app. split; apply Forall_replicate; [right | left]; reflexivity.
Defined.

(** * Further properties *)

(** ** Bounds kept by every execution *)

(** X1.  In every execution from power-on the two ring buffers keep
    their sizes and their indices stay inside them: the sample window
    has [SizeOfAnalogArray] slots, its write position is the number of
    samples taken so far modulo [SizeOfAnalogArray], the history has
    [HISTORY_SIZE] slots and its index is below [HISTORY_SIZE]; the
    samples are 16-bit values and the stored sums are sums of one
    window. *)
Theorem ring_buffers_stay_in_bounds (raw : nat -> N) (serial : bool)
    (sensor : nat -> Z) (tks : list tick) (st : state) :
  boot_and_run raw serial sensor tks = Some st ->
  length (AnalogArray st) = SizeOfAnalogArray
  /\ AnalogArrayPosition st = (samples_in tks mod SizeOfAnalogArray)%nat
  /\ (AnalogArrayPosition st < SizeOfAnalogArray)%nat
  /\ Forall sample_ok (AnalogArray st)
  /\ length (sumHistory st) = HISTORY_SIZE
  /\ (historyPosition st < HISTORY_SIZE)%nat
  /\ sum_ok (priorSum st)
  /\ Forall sum_ok (sumHistory st).
Proof.
  unfold boot_and_run. intros Hrun.
  destruct (setup sensor power_on) as [st0|] eqn:Hboot; [|discriminate].
  pose proof (warming_up_run raw serial tks 0 st0 st (warming_up_boot _ _ Hboot) Hrun)
    as [Hwf (c & Hn & _)].
  destruct Hwf as [H1 H2 H3 H4 H5 H6 H7].
  cbn [Nat.add] in Hn.
  split; [exact H1|]. split.
  - rewrite Hn, Nat.add_comm, Nat.mul_comm, Nat.Div0.mod_add.
    symmetry. apply Nat.mod_small. assumption.
  - split; [exact H2|]. split; [exact H3|]. split; [exact H4|].
    split; [exact H5|]. split; [exact H6 | exact H7].
Qed.

Lemma ring_buffers_stay_in_bounds_witness :
  exists st,
    boot_and_run (fun _ => 0%N) true (fun _ => 500)
      (replicate 203 (Timer1 70000) ++ [Timer3]) = Some st
    /\ length (AnalogArray st) = SizeOfAnalogArray
    /\ AnalogArrayPosition st = 3%nat.
Proof.
  eexists. split; [vm_compute; reflexivity|].
  match goal with
  | |- length (AnalogArray ?st) = _ /\ _ =>
      assert (Hrun : boot_and_run (fun _ => 0%N) true (fun _ => 500)
                       (replicate 203 (Timer1 70000) ++ [Timer3]) = Some st)
        by (vm_compute; reflexivity);
      destruct (ring_buffers_stay_in_bounds _ _ _ _ _ Hrun) as (Hlen & Hpos & _)
  end.
  split; [exact Hlen|]. rewrite Hpos. vm_compute. reflexivity.
Defined.

(** X2.  Summing a window of a hundred 16-bit samples in a
    [signed long] never wraps around: the loop returns the exact sum,
    which lies between 0 and 6553500. *)
Theorem window_sum_never_overflows (arr : list Z) :
  length arr = SizeOfAnalogArray -> Forall sample_ok arr ->
  window_sum arr = Some (total arr) /\ 0 <= total arr <= 6553500.
Proof.
  intros Hlen Hok. split.
  - apply window_sum_total; assumption.
  - apply (window_total_ok arr Hok Hlen).
Qed.

Lemma window_sum_never_overflows_witness :
  window_sum (replicate SizeOfAnalogArray 65535) = Some 6553500.
Proof.
  destruct (window_sum_never_overflows (replicate SizeOfAnalogArray 65535))
    as [Hsum _].
  - apply length_replicate.
  - apply Forall_replicate. unfold sample_ok. lia.
  - rewrite Hsum. reflexivity.
Defined.

(** ** Truncating division against a threshold *)

Lemma quot_ge_iff (a b q : Z) :
  0 < b -> 0 < q -> (q <= a ÷ b <-> b * q <= a).
Proof.
  intros Hb Hq. split.
  - intros Hle. destruct (Z.lt_ge_cases a (b * q)) as [Hlt|]; [|assumption].
    exfalso. destruct (Z.lt_ge_cases a 0) as [Hneg|Hnn].
    + assert (a ÷ b <= 0) by (apply Z.quot_le_upper_bound; lia). lia.
    + pose proof (Z.quot_lt_upper_bound a b q Hnn Hb Hlt). lia.
  - intros Hle. apply Z.quot_le_lower_bound; assumption.
Qed.

Lemma quot_le_opp_iff (a b q : Z) :
  0 < b -> 0 < q -> (a ÷ b <= - q <-> a <= - (b * q)).
Proof.
  intros Hb Hq.
  pose proof (quot_ge_iff (- a) b q Hb Hq) as H.
  rewrite Z.quot_opp_l in H by lia. lia.
Qed.

(** X3.  For window sums and positive reference sums the 32-bit
    computations of [percentChange] and [rateOfChange] never wrap
    around: they return the exact truncated quotients, and
    [percentChange] is never below -100 nor [rateOfChange] below -20. *)
Theorem percentages_are_exact (sum prior oldest : Z) :
  sum_ok sum -> 0 < prior <= SUM_MAX -> 0 < oldest <= SUM_MAX ->
  percentChange_of sum prior = Some (pct sum prior)
  /\ rateOfChange_of sum oldest = Some (rate sum oldest)
  /\ -100 <= pct sum prior <= 655350000
  /\ -20 <= rate sum oldest <= 131070000.
Proof.
  intros Hs Hp Ho.
  assert (Hpok : sum_ok prior) by (unfold sum_ok; lia).
  assert (Hook : sum_ok oldest) by (unfold sum_ok; lia).
  split; [apply percentChange_of_pct; (assumption || lia)|].
  split; [apply rateOfChange_of_rate; (assumption || lia)|].
  apply percentages_bounds; assumption.
Qed.

Lemma percentages_are_exact_witness :
  percentChange_of 0 6553500 = Some (-100)
  /\ rateOfChange_of 6553500 1 = Some 131069980.
Proof.
  destruct (percentages_are_exact 0 6553500 6553500) as (Hpc & _);
    [unfold sum_ok, SUM_MAX; lia | unfold SUM_MAX; lia | unfold SUM_MAX; lia |].
  destruct (percentages_are_exact 6553500 1 1) as (_ & Hr & _);
    [unfold sum_ok, SUM_MAX; lia | unfold SUM_MAX; lia | unfold SUM_MAX; lia |].
  split; [exact Hpc | exact Hr].
Defined.

(** X4.  From a steady level, where the previous sum and the evicted
    history sum are both [L], the rate test is the stronger of the two:
    a primed cycle switches the flag on exactly when the new sum is at
    least [1.3 * L], off exactly when it is at most [0.7 * L], and leaves
    it alone in between. *)
Theorem steady_level_needs_thirty_percent (serial : bool) (reading : Z)
    (st : state) (L : Z) :
  wf st -> S (AnalogArrayPosition st) = SizeOfAnalogArray ->
  primed_this_cycle st = true ->
  0 < L -> priorSum st = L -> oldestSum st = L ->
  let sum := total (closing_window reading st) in
  exists st' out,
    readAnalogIntoArray serial reading st = Some (st', out)
    /\ lightStatus st' =
         if 13 * L <=? 10 * sum then true
         else if 10 * sum <=? 7 * L then false
         else lightStatus st.
Proof.
  intros Hwf Hlast Hprimed HL Hprior Hold sum.
  destruct (closing_tick serial reading st Hwf Hlast) as
    (st' & out & Hrun & Hres & _ & _ & _ & _ & _ & _ & _ & Hpc & Hr); [lia | lia |].
  exists st', out. split; [exact Hrun|].
  fold sum in Hres, Hpc, Hr. rewrite Hprimed, Hprior, Hold in *.
  rewrite (classify_primed _ _ _ _ Hpc Hr) in Hres.
  set (pc := pct sum L) in *. set (r := rate sum L) in *.
  assert (Hr6 : 6 <= r <-> L * 5 * 6 <= (sum - L) * 100).
  { apply quot_ge_iff; lia. }
  assert (Hr6' : r <= -6 <-> (sum - L) * 100 <= - (L * 5 * 6)).
  { apply (quot_le_opp_iff ((sum - L) * 100) (L * 5) 6); lia. }
  assert (Hp16 : 16 <= pc <-> L * 16 <= (sum - L) * 100).
  { apply quot_ge_iff; lia. }
  assert (Hp16' : pc <= -16 <-> (sum - L) * 100 <= - (L * 16)).
  { apply (quot_le_opp_iff ((sum - L) * 100) L 16); lia. }
  destruct (Z.ltb_spec 15 pc), (Z.ltb_spec 5 (Z.abs r)), (Z.ltb_spec pc (-15)),
    (Z.leb_spec (13 * L) (10 * sum)), (Z.leb_spec (10 * sum) (7 * L));
    cbn [andb] in Hres;
    try (destruct ((5 <? Z.abs pc) && (Z.abs r <=? 5)));
    injection Hres as -> _; try reflexivity; exfalso; lia.
Qed.

Lemma steady_level_needs_thirty_percent_witness :
  exists st' out,
    readAnalogIntoArray true 678 switch_on_example = Some (st', out)
    /\ lightStatus st' = true.
Proof.
  destruct (steady_level_needs_thirty_percent true 678 switch_on_example 45200
              switch_on_example_wf) as (st' & out & Hrun & Hflag).
  - reflexivity.
  - reflexivity.
  - lia.
  - reflexivity.
  - reflexivity.
  - exists st', out. split; [exact Hrun|]. rewrite Hflag. reflexivity.
Defined.

(** X5.  The tick that closes a window prints "Gradual change
    ignored" exactly when the port is open, the history is primed, the
    change exceeds 5 percent in magnitude and the rate does not exceed 5
    percent in magnitude; the line carries the cycle's two percentages,
    and a cycle that prints it leaves the flag unchanged. *)
Theorem gradual_change_is_logged_and_ignored (serial : bool) (reading : Z)
    (st : state) :
  wf st -> S (AnalogArrayPosition st) = SizeOfAnalogArray ->
  0 < priorSum st -> 0 < oldestSum st ->
  let sum := total (closing_window reading st) in
  let pc := pct sum (priorSum st) in
  let r := rate sum (oldestSum st) in
  exists st' out,
    readAnalogIntoArray serial reading st = Some (st', out)
    /\ (In (Println (GradualIgnored pc r)) out
        <-> serial = true /\ primed_this_cycle st = true
            /\ 5 < Z.abs pc /\ Z.abs r <= 5)
    /\ (forall a b, In (Println (GradualIgnored a b)) out ->
        a = pc /\ b = r /\ lightStatus st' = lightStatus st).
Proof.
  intros Hwf Hlast Hp Ho sum pc r.
  destruct (closing_tick serial reading st Hwf Hlast Hp Ho) as
    (st' & out & Hrun & Hres & _ & _ & _ & _ & _ & _ & _ & Hpc & Hr).
  exists st', out. split; [exact Hrun|].
  fold sum in Hres, Hpc, Hr. fold pc in Hres, Hpc. fold r in Hres, Hr.
  destruct (primed_this_cycle st).
  - rewrite (classify_primed _ _ _ _ Hpc Hr) in Hres.
    destruct (Z.ltb_spec 15 pc), (Z.ltb_spec 5 (Z.abs r)), (Z.ltb_spec pc (-15)),
      (Z.ltb_spec 5 (Z.abs pc)), (Z.leb_spec (Z.abs r) 5);
      cbn [andb] in Hres; injection Hres as -> ->;
      destruct serial; cbn [log app In];
      (split; [split; [intros H'; repeat split;
                         try (lia || reflexivity);
                         intuition (discriminate || congruence)
                      | intros (? & ? & ? & ?); try discriminate; try lia; auto]
              | intros a b H'; intuition (try discriminate; try congruence)]).
  - rewrite classify_untouched in Hres. injection Hres as -> ->.
    destruct serial; cbn [log app In]; split;
      try (split; [intros H'; intuition discriminate
                  | intros (? & ? & _); discriminate]);
      intros a b H'; intuition discriminate.
Qed.

Lemma cloud_example_wf : wf cloud_example.
Proof.
  constructor; unfold cloud_example; fields.
  - apply length_replicate.
  - unfold SizeOfAnalogArray. lia.
  - apply Forall_replicate. unfold sample_ok. lia.
  - apply length_replicate.
  - unfold HISTORY_SIZE. lia.
  - unfold sum_ok, SUM_MAX. lia.
  - apply Forall_replicate. unfold sum_ok, SUM_MAX. lia.
Qed.

Lemma gradual_change_is_logged_and_ignored_witness :
  exists st' out,
    readAnalogIntoArray true 500 cloud_example = Some (st', out)
    /\ In (Println (GradualIgnored 10 2)) out
    /\ lightStatus st' = true.
Proof.
  destruct (gradual_change_is_logged_and_ignored true 500 cloud_example
              cloud_example_wf) as (st' & out & Hrun & Hiff & Hkeep).
  - reflexivity.
  - reflexivity.
  - reflexivity.
  - exists st', out. split; [exact Hrun|].
    assert (Hin : In (Println (GradualIgnored 10 2)) out).
    { apply Hiff. split; [reflexivity|]. split; [reflexivity|].
      split; [vm_compute; reflexivity | vm_compute; discriminate]. }
    split; [exact Hin|].
    destruct (Hkeep 10 2 Hin) as (_ & _ & Hflag). exact Hflag.
Defined.

(** ** One diagnostic line per window *)

Lemma diagnostics_app (evs1 evs2 : list event) :
  diagnostics (evs1 ++ evs2) = diagnostics evs1 ++ diagnostics evs2.
Proof.
  induction evs1 as [|e evs1 IH]; [reflexivity|].
  destruct e as [m| | |]; cbn [app diagnostics]; try assumption.
  destruct m; cbn; rewrite ?IH; reflexivity.
Qed.

Lemma classify_no_diagnostic (serial filled : bool) (pc r : Z) (b : bool) :
  diagnostics (snd (classify serial filled pc r b)) = [].
Proof.
  unfold classify. destruct filled; [|reflexivity].
  repeat match goal with
         | |- context [if ?c then _ else _] => destruct c
         end; destruct serial; reflexivity.
Qed.

Lemma sendWiggle_no_diagnostic (raw : nat -> N) (serial : bool) (st : state) :
  diagnostics (snd (sendWiggle raw serial st)) = [].
Proof.
  unfold sendWiggle.
  destruct (nextWiggleTime st <=? wrap_int (wiggleSec st + 1)); [|reflexivity].
  destruct (random_between raw (- wigglePeriodVariation)
              (wigglePeriodVariation + 1) (randomCalls st)) as [r c1].
  destruct (lightStatus st).
  - destruct (random_below raw 2 c1) as [rx c2].
    destruct (random_below raw 2 c2) as [ry c3].
    destruct serial; reflexivity.
  - destruct serial; reflexivity.
Qed.

(** What one interrupt adds to the diagnostic lines. *)
Lemma step_diagnostics (raw : nat -> N) (tk : tick) (st st' : state)
    (out : list event) :
  wf st -> step raw true tk st = Some (st', out) ->
  (diagnostics out = [] /\ priorSum st' = priorSum st
   /\ AnalogArrayPosition st'
      = (AnalogArrayPosition st + if is_sample tk then 1 else 0)%nat)
  \/ (diagnostics out = [(priorSum st, priorSum st')]
      /\ is_sample tk = true
      /\ S (AnalogArrayPosition st) = SizeOfAnalogArray
      /\ AnalogArrayPosition st' = 0%nat).
Proof.
  intros Hwf Hstep. destruct tk as [reading|]; cbn [step is_sample] in *.
  - destruct (Nat.eq_dec (S (AnalogArrayPosition st)) SizeOfAnalogArray) as [Hlast|Hin].
    + right.
      pose proof Hstep as Hcycle.
      rewrite (readAnalogIntoArray_wraps _ _ _ Hwf Hlast) in Hcycle.
      destruct (classification_cycle_inv _ _ _ _ _
                  (store_sample_wf reading st Hwf)
                  (closing_window_ok reading st Hwf) Hcycle)
        as (_ & _ & Hres & Hprior & _ & _ & _ & _ & Hpos & _).
      pose proof (store_sample_position reading st Hwf) as Hpos1.
      rewrite Hlast, Nat.eqb_refl in Hpos1.
      cbv zeta in Hres.
      pose proof (classify_no_diagnostic true
                    (primed_this_cycle (store_sample reading st))
                    (pct (total (closing_window reading st))
                         (priorSum (store_sample reading st)))
                    (rate (total (closing_window reading st))
                          (oldestSum (store_sample reading st)))
                    (lightStatus (store_sample reading st))) as Hnone.
      destruct (classify true _ _ _ _) as [status verdict].
      cbn [snd] in Hnone. injection Hres as _ ->.
      split; [|split; [reflexivity | split; [exact Hlast | congruence]]].
      cbn [log app diagnostics]. rewrite Hnone, Hprior. reflexivity.
    + left. pose proof (wf_position _ Hwf).
      rewrite readAnalogIntoArray_inside in Hstep by (assumption || lia).
      injection Hstep as <- <-.
      pose proof (store_sample_position reading st Hwf) as Hpos1.
      destruct (Nat.eqb_spec (S (AnalogArrayPosition st)) SizeOfAnalogArray);
        [contradiction|].
      split; [reflexivity|]. split; [reflexivity|]. rewrite Hpos1. lia.
  - left. injection Hstep as Hst.
    pose proof (sendWiggle_no_diagnostic raw true st) as Hnone.
    destruct (sendWiggle_frame raw true st) as (_ & E2 & _ & E4 & _).
    rewrite Hst in *. cbn [fst snd] in *.
    split; [exact Hnone|]. split; [exact E4|]. rewrite E2. lia.
Qed.

Lemma trace_diagnostics (raw : nat -> N) (tks : list tick) :
  forall (st : state) (tr : list transition),
    wf st -> trace raw true tks st = Some tr ->
    let lines := diagnostics (concat (map emitted tr)) in
    exists st',
      run raw true tks st = Some st'
      /\ chained (priorSum st) lines
      /\ final_sum (priorSum st) lines = priorSum st'
      /\ (AnalogArrayPosition st + samples_in tks
          = SizeOfAnalogArray * length lines + AnalogArrayPosition st')%nat.
Proof.
  induction tks as [|tk tks IH]; intros st tr Hwf Htr.
  - cbn [trace] in Htr. injection Htr as <-. exists st. cbn.
    repeat split; try reflexivity. unfold samples_in. cbn. lia.
  - destruct (trace_cons _ _ _ _ _ _ Htr) as (st1 & out & tr' & Hstep & Htr' & ->).
    pose proof (step_wf _ _ _ _ _ _ Hwf Hstep) as Hwf1.
    destruct (IH st1 tr' Hwf1 Htr') as (st' & Hrun & Hchain & Hfinal & Hcount).
    exists st'. cbn [run]. rewrite Hstep. split; [exact Hrun|].
    cbn [map concat emitted]. rewrite diagnostics_app. rewrite samples_in_cons.
    destruct (step_diagnostics raw tk st st1 out Hwf Hstep)
      as [(Hd & Hp & Hpos) | (Hd & Hs & Hlast & Hpos)]; rewrite Hd.
    + cbn [app]. rewrite <- Hp. split; [exact Hchain|]. split; [exact Hfinal|].
      lia.
    + cbn [app chained final_sum length]. rewrite Hs.
      split; [split; [reflexivity | exact Hchain]|]. split; [exact Hfinal|].
      unfold SizeOfAnalogArray in *. lia.
Qed.

Lemma boot_and_emit_inv (raw : nat -> N) (serial : bool) (sensor : nat -> Z)
    (tks : list tick) (evs : list event) :
  boot_and_emit raw serial sensor tks = Some evs ->
  exists st0 tr,
    setup sensor power_on = Some st0
    /\ trace raw serial tks st0 = Some tr
    /\ evs = concat (map emitted tr).
Proof.
  unfold boot_and_emit.
  case_eq (setup sensor power_on); [|discriminate]. intros st0 Hboot.
  case_eq (trace raw serial tks st0); [|discriminate]. intros tr Htr Hemit.
  injection Hemit as <-. exists st0, tr. repeat split; assumption.
Qed.

(** X6.  With the port open, an execution from power-on prints one
    diagnostic line per completed window.  The lines are chained: the
    first reports the sum [setup] stored as its prior sum, every later
    one reports the sum of the line before it, and the last sum is the
    [priorSum] the execution ends with. *)
Theorem diagnostic_lines_chain (raw : nat -> N) (sensor : nat -> Z)
    (tks : list tick) (evs : list event) :
  boot_and_emit raw true sensor tks = Some evs ->
  exists st0 st,
    setup sensor power_on = Some st0
    /\ boot_and_run raw true sensor tks = Some st
    /\ length (diagnostics evs) = (samples_in tks / SizeOfAnalogArray)%nat
    /\ chained (priorSum st0) (diagnostics evs)
    /\ final_sum (priorSum st0) (diagnostics evs) = priorSum st.
Proof.
  intros Hemit.
  destruct (boot_and_emit_inv _ _ _ _ _ Hemit) as (st0 & tr & Hboot & Htr & ->).
  destruct (setup_runs sensor power_on power_on_wf)
    as (st0' & Hboot' & Hwf & _ & _ & _ & Hpos & _).
  assert (st0' = st0) as -> by congruence.
  destruct (trace_diagnostics raw tks st0 tr Hwf Htr)
    as (st & Hrun & Hchain & Hfinal & Hcount).
  exists st0, st. split; [exact Hboot|].
  split; [unfold boot_and_run; rewrite Hboot; exact Hrun|].
  split; [|split; assumption].
  pose proof (wf_position _ (run_wf _ _ _ _ _ Hwf Hrun)) as Hlt.
  apply (Nat.div_unique _ _ _ (AnalogArrayPosition st)); [assumption|].
  rewrite <- Hcount, Hpos. reflexivity.
Qed.

Lemma diagnostic_lines_chain_witness :
  exists evs,
    boot_and_emit (fun _ => 0%N) true (fun _ => 500)
      (replicate 250 (Timer1 510)) = Some evs
    /\ length (diagnostics evs) = 2%nat
    /\ exists st0,
         setup (fun _ => 500) power_on = Some st0
         /\ chained (priorSum st0) (diagnostics evs).
Proof.
  eexists. split; [vm_compute; reflexivity|].
  match goal with
  | |- length (diagnostics ?evs) = _ /\ _ =>
      assert (Hemit : boot_and_emit (fun _ => 0%N) true (fun _ => 500)
                        (replicate 250 (Timer1 510)) = Some evs)
        by (vm_compute; reflexivity);
      destruct (diagnostic_lines_chain _ _ _ _ Hemit)
        as (st0 & st & Hboot & _ & Hlen & Hchain & _)
  end.
  split; [rewrite Hlen; vm_compute; reflexivity|].
  exists st0. split; assumption.
Defined.

(** ** The serial port is only written to *)





(** ** What the two interrupts leave to each other *)

(** X8.  [readAnalogIntoArray] never writes the scheduler's variables
    ([wiggleSec], [nextWiggleTime], the random generator) and never
    moves the pointer, and neither what it stores nor what it prints
    depends on them.  [sendWiggle] never writes the sampler's variables
    nor [lightStatus], and of the variables it does not own it reads
    only [lightStatus]: its output and the scheduler's variables after
    it are the same in two states that agree on the scheduler's
    variables and on the flag.  The flag is read: a firing [sendWiggle]
    requests no movement exactly when it is false.  So the flag is the
    only variable one routine writes and the other reads. *)
Theorem interrupts_share_only_the_flag (raw : nat -> N) (serial : bool)
    (reading : Z) (st : state) :
  (forall st' out,
      readAnalogIntoArray serial reading st = Some (st', out) ->
      scheduler_view st' = scheduler_view st /\ moves out = [])
  /\ (forall st2 : state,
        sampler_view st2 = sampler_view st ->
        option_map (fun r => (sampler_view (fst r), snd r))
                   (readAnalogIntoArray serial reading st2)
        = option_map (fun r => (sampler_view (fst r), snd r))
                     (readAnalogIntoArray serial reading st))
  /\ (let st' := fst (sendWiggle raw serial st) in
      AnalogArray st' = AnalogArray st
      /\ AnalogArrayPosition st' = AnalogArrayPosition st
      /\ lightStatus st' = lightStatus st
      /\ priorSum st' = priorSum st
      /\ sumHistory st' = sumHistory st
      /\ historyPosition st' = historyPosition st
      /\ historyFilled st' = historyFilled st)
  /\ (forall st2 : state,
        scheduler_view st2 = scheduler_view st ->
        lightStatus st2 = lightStatus st ->
        scheduler_view (fst (sendWiggle raw serial st2))
          = scheduler_view (fst (sendWiggle raw serial st))
        /\ snd (sendWiggle raw serial st2) = snd (sendWiggle raw serial st))
  /\ (nextWiggleTime st <= wrap_int (wiggleSec st + 1) ->
      (moves (snd (sendWiggle raw serial st)) = [] <-> lightStatus st = false)).
Proof.
  split; [|split; [|split; [apply sendWiggle_frame|split]]].
  - intros st' out Hrun.
    destruct (readAnalogIntoArray_prints_only _ _ _ _ _ Hrun)
      as (Hprints & _ & H1 & H2 & H3).
    split; [unfold scheduler_view; rewrite H1, H2, H3; reflexivity|].
    clear - Hprints. induction Hprints as [|e out [m ->] _ IH]; [reflexivity|].
    exact IH.
  - intros st2 Hview. unfold sampler_view in Hview.
    injection Hview as E1 E2 E3 E4 E5 E6 E7.
    unfold readAnalogIntoArray, classification_cycle, store_sample.
    cbn [AnalogArray AnalogArrayPosition lightStatus priorSum sumHistory
         historyPosition historyFilled wiggleSec nextWiggleTime randomCalls].
    rewrite E1, E2, E3, E4, E5, E6, E7.
    destruct (AnalogArrayPosition st <? length (AnalogArray st))%nat; [|reflexivity].
    destruct (uint_succ (AnalogArrayPosition st) mod SizeOfAnalogArray =? 0)%nat;
      [|reflexivity].
    destruct (window_sum _) as [sum|]; [|reflexivity].
    destruct (percentChange_of sum (priorSum st)) as [pc|]; [|reflexivity].
    destruct (sumHistory st !! historyPosition st) as [oldest|]; [|reflexivity].
    destruct (rateOfChange_of sum oldest) as [r|]; [|reflexivity].
    destruct (classify serial _ pc r (lightStatus st)) as [status verdict].
    reflexivity.
  - intros st2 Hview Hflag. unfold scheduler_view in Hview.
    injection Hview as E1 E2 E3.
    unfold sendWiggle. rewrite E1, E2, E3, Hflag.
    destruct (nextWiggleTime st <=? wrap_int (wiggleSec st + 1));
      [|split; reflexivity].
    destruct (random_between raw (- wigglePeriodVariation)
                (wigglePeriodVariation + 1) (randomCalls st)) as [r c1].
    destruct (lightStatus st); [|split; reflexivity].
    destruct (random_below raw 2 c1) as [rx c2].
    destruct (random_below raw 2 c2) as [ry c3]. split; reflexivity.
  - intros Hdue. destruct (lightStatus st) eqn:Hlit.
    + destruct (sendWiggle_lit raw serial st Hdue Hlit) as (_ & -> & _).
      split; discriminate.
    + pose proof (sendWiggle_fires raw serial st Hdue) as Hf.
      destruct (sendWiggle raw serial st) as [st2 o]. cbn [snd].
      destruct Hf as (_ & _ & _ & ->). rewrite Hlit.
      destruct serial; split; reflexivity.
Qed.

Lemma interrupts_share_only_the_flag_witness :
  snd (sendWiggle (fun k => N.of_nat k) true (store_sample 7 (due_example true)))
    = snd (sendWiggle (fun k => N.of_nat k) true (due_example true))
  /\ (moves (snd (sendWiggle (fun k => N.of_nat k) true (due_example true))) = []
      <-> lightStatus (due_example true) = false)
  /\ moves (snd (sendWiggle (fun k => N.of_nat k) true (due_example true))) <> [].
Proof.
  destruct (interrupts_share_only_the_flag (fun k => N.of_nat k) true 7
              (due_example true)) as (_ & _ & _ & Hreads & Hflag).
  assert (Hdue : nextWiggleTime (due_example true)
                 <= wrap_int (wiggleSec (due_example true) + 1)).
  { vm_compute. discriminate. }
  split; [apply (Hreads (store_sample 7 (due_example true))); reflexivity|].
  split; [exact (Hflag Hdue)|].
  intros Hnone. apply (Hflag Hdue) in Hnone. discriminate Hnone.
Defined.

(** ** The history ring *)

Lemma history_after_five (h : nat) (a0 a1 a2 a3 a4 s1 s2 s3 s4 s5 : Z) :
  (h < HISTORY_SIZE)%nat ->
  let h1 := (uint_succ h mod HISTORY_SIZE)%nat in
  let h2 := (uint_succ h1 mod HISTORY_SIZE)%nat in
  let h3 := (uint_succ h2 mod HISTORY_SIZE)%nat in
  let h4 := (uint_succ h3 mod HISTORY_SIZE)%nat in
  let h5 := (uint_succ h4 mod HISTORY_SIZE)%nat in
  let hist := <[h4 := s5]> (<[h3 := s4]> (<[h2 := s3]> (<[h1 := s2]>
                (<[h := s1]> [a0; a1; a2; a3; a4])))) in
  h5 = h
  /\ hist = drop (HISTORY_SIZE - h) [s1; s2; s3; s4; s5]
            ++ take (HISTORY_SIZE - h) [s1; s2; s3; s4; s5]
  /\ hist !! h = Some s1.
Proof.
  unfold HISTORY_SIZE. intros Hh.
  do 5 (destruct h as [|h]; [repeat split; reflexivity|]). lia.
Qed.

(** X9.  After five consecutive cycles the history ring holds exactly
    the sums of these five cycles, rotated by the history index; the
    index is back where it was, the history is marked as filled,
    [priorSum] is the latest sum, and the entry the next cycle compares
    against and evicts is the sum of five cycles ago. *)
Theorem history_holds_the_last_five_sums (serial : bool) (st : state)
    (s1 s2 s3 s4 s5 : Z) :
  live st ->
  Forall (fun s => 0 < s <= SUM_MAX) [s1; s2; s3; s4; s5] ->
  exists st',
    run_cycles serial [s1; s2; s3; s4; s5] st = Some st'
    /\ sumHistory st'
       = drop (HISTORY_SIZE - historyPosition st) [s1; s2; s3; s4; s5]
         ++ take (HISTORY_SIZE - historyPosition st) [s1; s2; s3; s4; s5]
    /\ historyPosition st' = historyPosition st
    /\ oldestSum st' = s1
    /\ priorSum st' = s5
    /\ historyFilled st' = true.
Proof.
  intros Hlive Hsums.
  apply Forall_cons in Hsums. destruct Hsums as [H1 Hsums].
  apply Forall_cons in Hsums. destruct Hsums as [H2 Hsums].
  apply Forall_cons in Hsums. destruct Hsums as [H3 Hsums].
  apply Forall_cons in Hsums. destruct Hsums as [H4 Hsums].
  apply Forall_cons in Hsums. destruct Hsums as [H5 _].
  pose proof Hlive as (Hwf & _ & _).
  pose proof (wf_hposition _ Hwf) as Hh. pose proof (wf_hlength _ Hwf) as Hlen.
  destruct (live_cycle serial s1 st Hlive H1)
    as (st1 & o1 & R1 & (_ & _ & E1 & P1 & F1 & _) & L1).
  destruct (live_cycle serial s2 st1 L1 H2)
    as (st2 & o2 & R2 & (_ & _ & E2 & P2 & F2 & _) & L2).
  destruct (live_cycle serial s3 st2 L2 H3)
    as (st3 & o3 & R3 & (_ & _ & E3 & P3 & F3 & _) & L3).
  destruct (live_cycle serial s4 st3 L3 H4)
    as (st4 & o4 & R4 & (_ & _ & E4 & P4 & F4 & _) & L4).
  destruct (live_cycle serial s5 st4 L4 H5)
    as (st5 & o5 & R5 & (_ & Q5 & E5 & P5 & F5 & _) & L5).
  exists st5. cbn [run_cycles]. rewrite R1, R2, R3, R4, R5.
  split; [reflexivity|].
  destruct (sumHistory st) as [|a0 [|a1 [|a2 [|a3 [|a4 [|a5 rest]]]]]] eqn:Hhist;
    try discriminate Hlen.
  destruct (history_after_five (historyPosition st) a0 a1 a2 a3 a4 s1 s2 s3 s4 s5 Hh)
    as (Hback & Hring & Hold).
  rewrite <- P1, <- P2, <- P3, <- P4 in Hback, Hring, Hold.
  rewrite <- E1, <- E2 in Hring, Hold.
  rewrite <- E3, <- E4, <- E5 in Hring, Hold.
  rewrite <- P5 in Hback.
  split; [exact Hring|]. split; [exact Hback|].
  split; [unfold oldestSum; rewrite Hback, Hold; reflexivity|].
  split; [exact Q5|].
  rewrite F5. unfold primed_this_cycle.
  destruct (uint_succ (historyPosition st4) mod HISTORY_SIZE =? 0)%nat eqn:Hz;
    [reflexivity|].
  rewrite F4. unfold primed_this_cycle.
  destruct (uint_succ (historyPosition st3) mod HISTORY_SIZE =? 0)%nat eqn:Hz3;
    [reflexivity|].
  rewrite F3. unfold primed_this_cycle.
  destruct (uint_succ (historyPosition st2) mod HISTORY_SIZE =? 0)%nat eqn:Hz2;
    [reflexivity|].
  rewrite F2. unfold primed_this_cycle.
  destruct (uint_succ (historyPosition st1) mod HISTORY_SIZE =? 0)%nat eqn:Hz1;
    [reflexivity|].
  rewrite F1. unfold primed_this_cycle.
  destruct (uint_succ (historyPosition st) mod HISTORY_SIZE =? 0)%nat eqn:Hz0;
    [reflexivity|].
  exfalso. rewrite P4 in Hz. rewrite P3 in Hz3, Hz. rewrite P2 in Hz2, Hz3, Hz.
  rewrite P1 in Hz1, Hz2, Hz3, Hz.
  clear - Hh Hz Hz3 Hz2 Hz1 Hz0. unfold HISTORY_SIZE in *.
  destruct (historyPosition st) as [|[|[|[|[|h]]]]]; try discriminate; lia.
Qed.

Lemma baseline_example_live : live baseline_example.
Proof.
  split; [apply baseline_example_wf|]. split; [reflexivity|].
  apply Forall_replicate. lia.
Qed.

Lemma history_holds_the_last_five_sums_witness :
  exists st',
    run_cycles true [100; 200; 300; 400; 500] baseline_example = Some st'
    /\ sumHistory st' = [300; 400; 500; 100; 200]
    /\ oldestSum st' = 100.
Proof.
  destruct (history_holds_the_last_five_sums true baseline_example
              100 200 300 400 500 baseline_example_live)
    as (st' & Hrun & Hhist & _ & Hold & _).
  - repeat (apply Forall_cons; split; [unfold SUM_MAX; lia|]). apply Forall_nil_2.
  - exists st'. split; [exact Hrun|]. split; [exact Hhist | exact Hold].
Defined.

(** ** Between two triggers *)

(** X10.  After a trigger, when [wiggleSec] is 0, [sendWiggle] stays
    silent for [nextWiggleTime - 1] ticks, drawing no random number, and
    the tick after these fires and resets the counter: two consecutive
    triggers are exactly [nextWiggleTime] seconds apart. *)
Theorem wiggle_waits_the_whole_interval (raw : nat -> N) (serial : bool)
    (st : state) (t : Z) :
  wiggleSec st = 0 -> nextWiggleTime st = t -> 0 < t <= 32767 ->
  exists st' tr,
    run raw serial (replicate (Z.to_nat (t - 1)) Timer3) st = Some st'
    /\ trace raw serial (replicate (Z.to_nat (t - 1)) Timer3) st = Some tr
    /\ concat (map emitted tr) = []
    /\ randomCalls st' = randomCalls st
    /\ nextWiggleTime st' <= wrap_int (wiggleSec st' + 1)
    /\ wiggleSec (fst (sendWiggle raw serial st')) = 0.
Proof.
  intros Hsec Hnext Ht.
  destruct (waiting_ticks raw serial t (Z.to_nat (t - 1)) st Hnext)
    as (st' & tr & Hrun & Htr & Hout & H1 & H2 & H3 & _); [lia | lia |].
  exists st', tr. split; [exact Hrun|]. split; [exact Htr|].
  split; [exact Hout|]. split; [exact H3|].
  assert (Hdue : nextWiggleTime st' <= wrap_int (wiggleSec st' + 1)).
  { rewrite H1, H2, wrap_int_id by lia. lia. }
  split; [exact Hdue|].
  pose proof (sendWiggle_fires raw serial st' Hdue) as Hf.
  destruct (sendWiggle raw serial st') as [st2 out]. cbn [fst].
  destruct Hf as (_ & Hzero & _). exact Hzero.
Qed.

Lemma wiggle_waits_the_whole_interval_witness :
  exists st' tr,
    run (fun _ => 0%N) true (replicate 9 Timer3) power_on = Some st'
    /\ trace (fun _ => 0%N) true (replicate 9 Timer3) power_on = Some tr
    /\ concat (map emitted tr) = []
    /\ nextWiggleTime st' <= wrap_int (wiggleSec st' + 1).
Proof.
  destruct (wiggle_waits_the_whole_interval (fun _ => 0%N) true power_on 10)
    as (st' & tr & Hrun & Htr & Hout & _ & Hdue & _).
  - reflexivity.
  - reflexivity.
  - lia.
  - exists st', tr. repeat split; assumption.
Defined.

(** ** The pointer over a whole execution *)

Lemma displacement_app (evs1 evs2 : list event) :
  displacement (evs1 ++ evs2)
    = (fst (displacement evs1) + fst (displacement evs2),
       snd (displacement evs1) + snd (displacement evs2)).
Proof.
  induction evs1 as [|e evs1 IH].
  - cbn. destruct (displacement evs2). reflexivity.
  - destruct e as [m|x y w|ms|pin high]; cbn [app displacement]; try exact IH.
    rewrite IH. destruct (displacement evs1), (displacement evs2). cbn. f_equal; lia.
Qed.

Lemma displacement_prints (evs : list event) :
  Forall (fun e => exists m, e = Println m) evs -> displacement evs = (0, 0).
Proof.
  induction 1 as [|e evs [m ->] _ IH]; [reflexivity | exact IH].
Qed.

Lemma step_displacement (raw : nat -> N) (serial : bool) (tk : tick)
    (st st' : state) (out : list event) :
  step raw serial tk st = Some (st', out) -> displacement out = (0, 0).
Proof.
  destruct tk as [reading|]; cbn [step]; intros Hstep.
  - apply displacement_prints.
    apply (readAnalogIntoArray_prints_only _ _ _ _ _ Hstep).
  - injection Hstep as Hst. change out with (snd (st', out)). rewrite <- Hst.
    destruct (Z.le_gt_cases (nextWiggleTime st) (wrap_int (wiggleSec st + 1)))
      as [Hdue|Hwait].
    + destruct (lightStatus st) eqn:Hlit.
      * apply (sendWiggle_lit raw serial st Hdue Hlit).
      * pose proof (sendWiggle_fires raw serial st Hdue) as Hf.
        destruct (sendWiggle raw serial st) as [st2 o]. cbn [snd].
        destruct Hf as (_ & _ & _ & ->). rewrite Hlit.
        destruct serial; reflexivity.
    + rewrite sendWiggle_counts by lia. reflexivity.
Qed.

(** X11.  Over any execution, from any state and under any
    interleaving of the two timers, the pointer movements requested add
    up to zero. *)
Theorem pointer_never_drifts (raw : nat -> N) (serial : bool) (tks : list tick) :
  forall (st : state) (tr : list transition),
    trace raw serial tks st = Some tr ->
    displacement (concat (map emitted tr)) = (0, 0).
Proof.
  induction tks as [|tk tks IH]; intros st tr Htr.
  - cbn [trace] in Htr. injection Htr as <-. reflexivity.
  - destruct (trace_cons _ _ _ _ _ _ Htr) as (st1 & out & tr' & Hstep & Htr' & ->).
    cbn [map concat emitted]. rewrite displacement_app.
    rewrite (step_displacement _ _ _ _ _ _ Hstep), (IH st1 tr' Htr'). reflexivity.
Qed.

Lemma pointer_never_drifts_witness :
  exists tr,
    trace (fun k => N.of_nat k) true
      (replicate 25 Timer3 ++ [Timer1 7]) (due_example true) = Some tr
    /\ length (moves (concat (map emitted tr))) = 6%nat
    /\ displacement (concat (map emitted tr)) = (0, 0).
Proof.
  eexists. split; [vm_compute; reflexivity|].
  split; [vm_compute; reflexivity|].
  apply (pointer_never_drifts (fun k => N.of_nat k) true
           (replicate 25 Timer3 ++ [Timer1 7]) (due_example true)).
  vm_compute. reflexivity.
Defined.

(** ** The interval drawn at a trigger *)

Lemma chosen_interval_draw (raw : nat -> N) (calls : nat) :
  chosen_interval raw calls = 7 + raw_random raw calls mod 7.
Proof.
  unfold chosen_interval, random_between, random_below, wigglePeriod,
    wigglePeriodVariation.
  change (3 + 1 <=? - (3)) with false. cbv iota.
  change (lsub (3 + 1) (- (3))) with 7. change (7 =? 0) with false. cbv iota.
  cbn [fst].
  pose proof (raw_random_range raw calls) as Hraw.
  rewrite Z.rem_mod_nonneg by lia.
  pose proof (Z.mod_pos_bound (raw_random raw calls) 7 ltac:(lia)) as Hm.
  unfold ladd.
  rewrite (wrap_long_id (raw_random raw calls mod 7 + - (3)))
    by (unfold LONG_MIN, LONG_MAX; lia).
  rewrite wrap_long_id by (unfold LONG_MIN, LONG_MAX; lia).
  rewrite wrap_int_id by lia.
  destruct (Z.ltb_spec (10 + (raw_random raw calls mod 7 + - (3))) 3); lia.
Qed.

Lemma sendWiggle_draws (raw : nat -> N) (serial : bool) (st : state) :
  nextWiggleTime st <= wrap_int (wiggleSec st + 1) ->
  randomCalls (fst (sendWiggle raw serial st))
    = (randomCalls st + if lightStatus st then 3 else 1)%nat.
Proof.
  intros Hdue. unfold sendWiggle.
  destruct (Z.leb_spec (nextWiggleTime st) (wrap_int (wiggleSec st + 1))); [|lia].
  pose proof (jitter_range raw (randomCalls st)) as Hj.
  destruct (random_between raw (- wigglePeriodVariation)
              (wigglePeriodVariation + 1) (randomCalls st)) as [r c1].
  destruct Hj as [_ ->].
  destruct (lightStatus st).
  - unfold random_below. cbn. lia.
  - cbn. lia.
Qed.

(** X12.  The interval a trigger chooses is 7 plus the raw draw modulo
    7, so the clamp to 3 seconds never takes effect; a trigger consumes
    three random numbers when the flag is true and one when it is
    false. *)
Theorem next_interval_is_seven_plus_draw (raw : nat -> N) (serial : bool)
    (st : state) :
  nextWiggleTime st <= wrap_int (wiggleSec st + 1) ->
  let st' := fst (sendWiggle raw serial st) in
  nextWiggleTime st' = 7 + raw_random raw (randomCalls st) mod 7
  /\ randomCalls st' = (randomCalls st + if lightStatus st then 3 else 1)%nat.
Proof.
  intros Hdue st'. split.
  - pose proof (sendWiggle_fires raw serial st Hdue) as Hf.
    unfold st'. destruct (sendWiggle raw serial st) as [st2 out]. cbn [fst].
    destruct Hf as (-> & _). apply chosen_interval_draw.
  - apply sendWiggle_draws, Hdue.
Qed.

Lemma next_interval_is_seven_plus_draw_witness :
  nextWiggleTime (fst (sendWiggle (fun _ => 1000%N) true (due_example true))) = 13
  /\ randomCalls (fst (sendWiggle (fun _ => 1000%N) true (due_example true))) = 3%nat.
Proof.
  destruct (next_interval_is_seven_plus_draw (fun _ => 1000%N) true (due_example true))
    as [Hnext Hcalls].
  - vm_compute. discriminate.
  - split; [rewrite Hnext; reflexivity | rewrite Hcalls; reflexivity].
Defined.

(** ** The earlier sketch *)

(** As long as [priorSum] is 0 the ticks inside a window only store
    their sample. *)
Lemma legacy_inside_window (serial : bool) (readings : list Z) :
  forall st : Legacy.state,
    length (Legacy.AnalogArray st) = SizeOfAnalogArray ->
    (Legacy.AnalogArrayPosition st + length readings < SizeOfAnalogArray)%nat ->
    exists st',
      Legacy.sample_all serial readings st = Some st'
      /\ length (Legacy.AnalogArray st') = SizeOfAnalogArray
      /\ Legacy.AnalogArrayPosition st'
         = (Legacy.AnalogArrayPosition st + length readings)%nat
      /\ Legacy.priorSum st' = Legacy.priorSum st
      /\ Legacy.lightStatus st' = Legacy.lightStatus st.
Proof.
  induction readings as [|reading readings IH]; intros st Hlen Hpos.
  - exists st. cbn. repeat split; try reflexivity; try assumption. lia.
  - cbn [Legacy.sample_all length] in *. unfold Legacy.readAnalogIntoArray.
    rewrite Hlen.
    destruct (Nat.ltb_spec (Legacy.AnalogArrayPosition st) SizeOfAnalogArray); [|lia].
    unfold SizeOfAnalogArray in *.
    rewrite uint_succ_small by lia. rewrite Nat.mod_small by lia.
    destruct (Nat.eqb_spec (S (Legacy.AnalogArrayPosition st)) 0); [lia|].
    match goal with
    | |- context [Legacy.sample_all serial readings ?st1] =>
        destruct (IH st1) as (st' & Hrun & H1 & H2 & H3 & H4)
    end.
    + cbn. rewrite length_insert. exact Hlen.
    + cbn. lia.
    + exists st'. split; [exact Hrun|]. cbn in H2, H3, H4.
      repeat split; try assumption. lia.
Qed.

Lemma legacy_zero_prior_sum (serial : bool) (readings : list Z) :
  forall st : Legacy.state,
    Legacy.priorSum st = 0 ->
    (Legacy.AnalogArrayPosition st + length readings = SizeOfAnalogArray)%nat ->
    (0 < length readings)%nat ->
    Legacy.sample_all serial readings st = None.
Proof.
  induction readings as [|reading readings IH]; intros st Hprior Hlen Hpos;
    [cbn in Hpos; lia|].
  cbn [Legacy.sample_all length] in *. unfold Legacy.readAnalogIntoArray.
  destruct (Legacy.AnalogArrayPosition st <? length (Legacy.AnalogArray st))%nat;
    [|reflexivity].
  unfold SizeOfAnalogArray in *.
  rewrite uint_succ_small by lia.
  destruct (Nat.eq_dec (S (Legacy.AnalogArrayPosition st)) 100%nat) as [Hlast|Hin].
  - rewrite Hlast. change (100 mod 100 =? 0)%nat with true. cbv iota.
    destruct (window_sum _) as [sum|]; [|reflexivity].
    rewrite Hprior. reflexivity.
  - rewrite Nat.mod_small by lia.
    destruct (Nat.eqb_spec (S (Legacy.AnalogArrayPosition st)) 0); [lia|].
    apply IH; cbn; try assumption; try lia.
Qed.

(** X13.  In the earlier sketch nothing assigns [priorSum] before the
    first cycle ([setup] does not, and the variable has no initialiser).
    Whatever the sensor returns, the ticks inside the first window store
    their samples and keep the flag, and the tick that closes the first
    window divides by the zero [priorSum]: the run has no defined
    result. *)
Theorem legacy_first_cycle_divides_by_zero (serial : bool) (sensor : nat -> Z)
    (readings : list Z) :
  (length readings <= SizeOfAnalogArray)%nat ->
  if (length readings =? SizeOfAnalogArray)%nat
  then Legacy.sample_all serial readings (Legacy.setup sensor Legacy.power_on) = None
  else exists st,
         Legacy.sample_all serial readings (Legacy.setup sensor Legacy.power_on)
           = Some st
         /\ Legacy.AnalogArrayPosition st = length readings
         /\ Legacy.priorSum st = 0
         /\ Legacy.lightStatus st = true.
Proof.
  intros Hlen.
  destruct (Nat.eqb_spec (length readings) SizeOfAnalogArray) as [Hfull|Hshort].
  - apply legacy_zero_prior_sum.
    + reflexivity.
    + exact Hfull.
    + rewrite Hfull. unfold SizeOfAnalogArray. lia.
  - destruct (legacy_inside_window serial readings (Legacy.setup sensor Legacy.power_on))
      as (st & Hrun & _ & Hpos & Hprior & Hflag).
    + cbn [Legacy.setup Legacy.AnalogArray]. rewrite prefill_length.
      apply length_replicate.
    + cbn [Legacy.setup Legacy.AnalogArrayPosition Legacy.power_on]. lia.
    + exists st. split; [exact Hrun|]. split; [exact Hpos|].
      split; [exact Hprior | exact Hflag].
Qed.

Lemma legacy_first_cycle_divides_by_zero_witness :
  Legacy.sample_all true (replicate 100 500)
    (Legacy.setup (fun _ => 500) Legacy.power_on) = None.
Proof.
  apply (legacy_first_cycle_divides_by_zero true (fun _ => 500) (replicate 100 500)).
  rewrite length_replicate. unfold SizeOfAnalogArray. lia.
Defined.



(** X15.  In the earlier sketch a tick of Timer3 that finds
    [wiggleSec] a multiple of [wigglePeriod] (as at power-on) wiggles
    by (1, 1) and back when the flag is true, and sets the counter to 1;
    the next nine ticks are silent, the tenth fires again with the same
    output, and the state is then the same as after the first firing. *)
Theorem legacy_wiggles_every_ten_seconds (serial : bool) (st : Legacy.state) :
  Z.rem (Legacy.wiggleSec st) Legacy.wigglePeriod = 0 ->
  let fired := fst (Legacy.sendWiggle serial st) in
  snd (Legacy.sendWiggle serial st)
    = (if Legacy.lightStatus st
       then Legacy.log serial Legacy.NeedWiggle
              ++ [Legacy.MouseMove 1 1 0; Legacy.Delay 1;
                  Legacy.MouseMove (-1) (-1) 0; Legacy.DigitalWrite led_pin true]
       else Legacy.log serial Legacy.DoNotWiggle
              ++ [Legacy.DigitalWrite led_pin false])
  /\ (forall k, (k < 9)%nat ->
      snd (Legacy.sendWiggle serial (Legacy.seconds serial k fired)) = [])
  /\ snd (Legacy.sendWiggle serial (Legacy.seconds serial 9 fired))
     = snd (Legacy.sendWiggle serial st)
  /\ Legacy.seconds serial 10 fired = fired.
Proof.
  intros Hzero fired.
  assert (Hfired : fired = {| Legacy.AnalogArray := Legacy.AnalogArray st;
                              Legacy.AnalogArrayPosition := Legacy.AnalogArrayPosition st;
                              Legacy.lightStatus := Legacy.lightStatus st;
                              Legacy.priorSum := Legacy.priorSum st;
                              Legacy.wiggleSec := 1 |}).
  { unfold fired, Legacy.sendWiggle. rewrite Hzero. reflexivity. }
  assert (Hout : snd (Legacy.sendWiggle serial st)
                 = (if Legacy.lightStatus st
                    then Legacy.log serial Legacy.NeedWiggle
                           ++ [Legacy.MouseMove 1 1 0; Legacy.Delay 1;
                               Legacy.MouseMove (-1) (-1) 0;
                               Legacy.DigitalWrite led_pin true]
                    else Legacy.log serial Legacy.DoNotWiggle
                           ++ [Legacy.DigitalWrite led_pin false])).
  { unfold Legacy.sendWiggle. rewrite Hzero. reflexivity. }
  split; [exact Hout|].
  rewrite Hout, Hfired. clear.
  split; [|split].
  - intros k Hk. do 9 (destruct k as [|k]; [reflexivity|]). lia.
  - reflexivity.
  - reflexivity.
Qed.

Lemma legacy_wiggles_every_ten_seconds_witness :
  snd (Legacy.sendWiggle true Legacy.power_on)
    = [Legacy.Println Legacy.NeedWiggle; Legacy.MouseMove 1 1 0; Legacy.Delay 1;
       Legacy.MouseMove (-1) (-1) 0; Legacy.DigitalWrite led_pin true]
  /\ snd (Legacy.sendWiggle true
            (Legacy.seconds true 4 (fst (Legacy.sendWiggle true Legacy.power_on))))
     = [].
Proof.
  destruct (legacy_wiggles_every_ten_seconds true Legacy.power_on)
    as (Hout & Hquiet & _).
  - reflexivity.
  - split; [exact Hout | exact (Hquiet 4%nat ltac:(lia))].
Defined.

